(** * ulib mapreduce: a shallow embedding of [src/ext2/mapreduce/mapreduce.h]

    The header defines the mapper / reducer / partitioner abstractions, the
    worker ([task::run]) and the coordinator ([job::exec]).  This file embeds

    - the machine arithmetic of [job::exec] ([int] loop counters, [size_t]
      offsets) and its accesses to the heap array [tasks];
    - the worker loop of [task::run] as a small-step machine, one atomic
      action per step, driven by an explicit schedule, so that every
      interleaving of the workers is a run of the model;
    - the partitioner's equality and slot derivation.

    The keyed store ([store.h]), the dataset container ([dataset.h]), the
    thread primitive ([ulib/thread.h]) and the mixing macro
    ([ulib/rand_tpl.h]) are collaborators whose sources are not part of the
    header; they are modelled from their documented interface. *)

From Stdlib Require Import ZArith Lia.
From stdpp Require Import gmap list fin_maps.

Local Open Scope Z_scope.

(* ===================================================================== *)
(** ** Machine integers *)
(* ===================================================================== *)

(** [size_t] and [uint64_t] are 64-bit unsigned; [int] is 32-bit signed. *)
Definition SIZE_MAX : Z := 2 ^ 64 - 1.
Definition INT_MAX : Z := 2 ^ 31 - 1.

(** Conversion to [size_t], and the wrap-around of [size_t] arithmetic. *)
Definition to_size_t (z : Z) : Z := z mod 2 ^ 64.

Definition size_mul (a b : Z) : Z := to_size_t (a * b).

(* ===================================================================== *)
(** ** The coordinator's sequential part: [job::exec] up to the joins *)
(* ===================================================================== *)

(** A [task] object: the two iterators it was constructed with.  An
    iterator into the dataset is the position it points at. *)
Record task := Task { _begin : nat; _end : nat }.

(** Faults of the sequential part of [exec]. *)
Inductive fault :=
| BadArrayLength (n : Z)        (* new T*[n] with n < 0 *)
| DivideByZero                  (* size() / 0 *)
| OutOfBounds (i n : Z)         (* tasks[i] with i outside [0, n) *)
| Uninitialised (i : Z).        (* tasks[i]->... on a slot never assigned *)

(** One access to the array [tasks]. *)
Inductive access :=
| Write (i : Z)
| Read (i : Z).

Definition access_index (a : access) : Z :=
  match a with Write i | Read i => i end.

(** The coordinator's view of the heap: the array [tasks] (a slot is [None]
    until a task pointer is stored in it), the accesses made to it so far,
    the threads started and the tasks deleted (joined), each in order. *)
Record heap := Heap {
  tasks : list (option task);
  accesses : list access;
  started : list task;
  deleted : list task
}.

(** A small state-and-error monad for the coordinator. *)
Definition M (A : Type) : Type := heap -> fault + (A * heap).

Definition ret {A} (a : A) : M A := fun h => inr (a, h).

Definition bind {A B} (m : M A) (f : A -> M B) : M B :=
  fun h => match m h with
           | inl e => inl e
           | inr (a, h') => f a h'
           end.

Definition throw {A} (e : fault) : M A := fun _ => inl e.

Notation "'let!' x ':=' m 'in' k" := (bind m (fun x => k))
  (at level 10, x name, m at level 100, k at level 200).
Notation "'do!' m 'in' k" := (bind m (fun _ => k))
  (at level 10, m at level 100, k at level 200).

(** [new T*[n]]: an array of [n] unassigned slots. *)
Definition new_tasks (n : Z) : M unit :=
  fun h =>
    if n <? 0 then inl (BadArrayLength n)
    else inr (tt, Heap (replicate (Z.to_nat n) None) (accesses h)
                       (started h) (deleted h)).

Definition in_bounds (i : Z) (h : heap) : bool :=
  (0 <=? i) && (i <? Z.of_nat (length (tasks h))).

(** [tasks[i] = new task(...)]. *)
Definition store_task (i : Z) (t : task) : M unit :=
  fun h =>
    if in_bounds i h
    then inr (tt, Heap (<[Z.to_nat i := Some t]> (tasks h))
                       (accesses h ++ [Write i]) (started h) (deleted h))
    else inl (OutOfBounds i (Z.of_nat (length (tasks h)))).

(** Reading the pointer [tasks[i]] in order to use the task it points to. *)
Definition load_task (i : Z) : M task :=
  fun h =>
    if in_bounds i h
    then match tasks h !! Z.to_nat i with
         | Some (Some t) =>
             inr (t, Heap (tasks h) (accesses h ++ [Read i])
                          (started h) (deleted h))
         | _ => inl (Uninitialised i)
         end
    else inl (OutOfBounds i (Z.of_nat (length (tasks h)))).

(** [t->start()]: the task's thread joins the pool of running workers. *)
Definition start (t : task) : M unit :=
  fun h => inr (tt, Heap (tasks h) (accesses h) (started h ++ [t]) (deleted h)).

(** [delete t]: the destructor joins the thread. *)
Definition delete_task (t : task) : M unit :=
  fun h => inr (tt, Heap (tasks h) (accesses h) (started h) (deleted h ++ [t])).

(** [size_t / size_t]. *)
Definition size_div (a b : Z) : M Z :=
  if b =? 0 then throw DivideByZero else ret (a / b).

(** [for (int i = 0; i < n; ++i) body(i)]. *)
Fixpoint for_each (l : list Z) (body : Z -> M unit) : M unit :=
  match l with
  | [] => ret tt
  | i :: l' => do! body i in for_each l' body
  end.

Definition for_int (n : Z) (body : Z -> M unit) : M unit :=
  for_each (seqZ 0 n) body.

(** [_dataset.begin() + off] for a [size_t] offset. *)
Definition iter_plus (it : nat) (off : Z) : nat := (it + Z.to_nat off)%nat.

(** [job::exec(int ntask)] on a dataset of [size] records: lines 202-216. *)
Definition exec (size : Z) (ntask : Z) : M unit :=
  do! new_tasks ntask in
  let! len := size_div size (to_size_t ntask) in
  do! for_int (ntask - 1) (fun i =>
        store_task i (Task (iter_plus 0 (size_mul len (to_size_t i)))
                           (iter_plus 0 (size_mul len (to_size_t (i + 1)))))) in
  do! store_task (ntask - 1)
        (Task (iter_plus 0 (size_mul len (to_size_t (ntask - 1))))
              (Z.to_nat size)) in
  do! for_int ntask (fun i => let! t := load_task i in start t) in
  for_int ntask (fun i => let! t := load_task i in delete_task t).

Definition empty_heap : heap := Heap [] [] [] [].

(** The WorkRanges handed to the workers, in worker order. *)
Definition exec_tasks (size ntask : Z) : fault + list task :=
  match exec size ntask empty_heap with
  | inl e => inl e
  | inr (_, h) => inr (started h)
  end.

(** The specification's WorkRange of worker [i] among [ntask] workers over
    [size] records (spec section 4.5, steps 1 to 3), to compare with the
    tasks [exec] builds: with
    [chunk = floor(size / ntask)], workers [0 .. ntask-2] get
    [[chunk*i, chunk*(i+1))] and the last worker gets
    [[chunk*(ntask-1), size)]. *)
Definition work_range (size ntask i : Z) : task :=
  let chunk := size / ntask in
  if i <? ntask - 1
  then Task (Z.to_nat (chunk * i)) (Z.to_nat (chunk * (i + 1)))
  else Task (Z.to_nat (chunk * (ntask - 1))) (Z.to_nat size).

(** Position [j] lies in the half-open range of task [t]. *)
Definition in_range (j : nat) (t : task) : Prop :=
  (_begin t <= j < _end t)%nat.

(* ===================================================================== *)
(** ** The partitioner *)
(* ===================================================================== *)

Section Partitioner.
Context {K : Type} `{EqDecision K}.

(** [uint64_t h = _key]: the key type converts to a 64-bit integer. *)
Variable key_to_uint64 : K -> Z.

(** Modelled from the spec: [RAND_INT3_MIX64] of [ulib/rand_tpl.h], a
    deterministic bit-mixing function on one 64-bit word (section 4.2). *)
Variable RAND_INT3_MIX64 : Z -> Z.

Record partitioner := Partitioner { _key : K }.

(** [operator size_t() const]. *)
Definition partitioner_slot (p : partitioner) : Z :=
  let h := to_size_t (key_to_uint64 (_key p)) in
  let h := to_size_t (RAND_INT3_MIX64 h) in
  to_size_t h.

(** [operator==(const partitioner &other) const]. *)
Definition partitioner_eq (p other : partitioner) : bool :=
  bool_decide (_key p = _key other).
End Partitioner.

Arguments partitioner K : clear implicits.

(* ===================================================================== *)
(** ** Workers over the shared store *)
(* ===================================================================== *)

Section Model.
Context {Rec K V : Type} `{Countable K}.

(** The mapper [M]: [key()] and [value()] of the record it is bound to. *)
Variable key : Rec -> K.
Variable value : Rec -> V.
(** The value a fresh store entry is default-constructed with, [V()]. *)
Variable V0 : V.
(** The combiner [R]: [R(x) += v] leaves [combine x v] in [x]. *)
Variable combine : V -> V -> V.

(** Modelled from the spec: the dataset container of [dataset.h], an
    ordered random-access sequence of records with [size()], [begin()] and
    [end()] (section 6); it is not modified while [exec] runs. *)
Variable dataset : list Rec.

(** [_dataset.size()]. *)
Definition dataset_size : Z := Z.of_nat (length dataset).

(** Modelled from the spec: the keyed storage collaborator of [store.h]
    (section 6): the entries, and for every locked key the worker that
    holds its lock. *)
Record store := Store {
  entries : gmap K V;
  locks : gmap K nat
}.

(** Modelled from the spec: [lock(key)] acquires mutual exclusion scoped
    to one key; the caller blocks ([None]) while another holder has it. *)
Definition store_lock (t : nat) (k : K) (s : store) : option store :=
  match locks s !! k with
  | None => Some (Store (entries s) (<[k := t]> (locks s)))
  | Some _ => None
  end.

(** Modelled from the spec: [unlock(key)] releases the lock of one key. *)
Definition store_unlock (k : K) (s : store) : store :=
  Store (entries s) (delete k (locks s)).

(** Modelled from the spec: indexed lookup-or-create, [store[key]]: a
    reference to the entry of the key, default-constructed on first
    access.  The reference is the key itself. *)
Definition store_index (k : K) (s : store) : store :=
  match entries s !! k with
  | Some _ => s
  | None => Store (<[k := V0]> (entries s)) (locks s)
  end.

(** Where a worker stands in [task::run] (lines 163-169). *)
Inductive pc :=
| AtTest                       (* 163: i != _end *)
| AtLock (r : Rec)             (* 165: _store.lock(m.key()) *)
| AtIndex (r : Rec)            (* 166: _store[m.key()] *)
| AtLoad (r : Rec)             (* 166: += reads the referenced value *)
| AtStore (r : Rec) (old : V)  (* 166: += writes the combined value *)
| AtUnlock (r : Rec)           (* 167: _store.unlock(m.key()) *)
| Returned                     (* 169: return 0 *)
| Crashed.                     (* an invalid iterator or reference was used *)

(** A worker: its task object, the loop iterator [i], and its position. *)
Record worker := Worker { w_task : task; w_i : nat; w_pc : pc }.

(** What one step of a worker does. *)
Inductive event :=
| EvMap (r : Rec)              (* M m( *i ) *)
| EvLock (k : K)
| EvIndex (k : K)
| EvLoad (k : K)
| EvMerge (k : K) (v : V)      (* the value [v] is merged into entry [k] *)
| EvUnlock (k : K)
| EvReturn
| EvCrash.

(** One atomic step of worker [t]; [None] when it cannot move (it is
    blocked on a lock, or its body is over). *)
Definition step_worker (t : nat) (w : worker) (s : store)
  : option (event * worker * store) :=
  let tk := w_task w in
  match w_pc w with
  | AtTest =>
      if decide (w_i w = _end tk)
      then Some (EvReturn, Worker tk (w_i w) Returned, s)
      else match dataset !! w_i w with
           | Some r => Some (EvMap r, Worker tk (w_i w) (AtLock r), s)
           | None => Some (EvCrash, Worker tk (w_i w) Crashed, s)
           end
  | AtLock r =>
      match store_lock t (key r) s with
      | Some s' => Some (EvLock (key r), Worker tk (w_i w) (AtIndex r), s')
      | None => None
      end
  | AtIndex r =>
      Some (EvIndex (key r), Worker tk (w_i w) (AtLoad r),
            store_index (key r) s)
  | AtLoad r =>
      match entries s !! key r with
      | Some old => Some (EvLoad (key r), Worker tk (w_i w) (AtStore r old), s)
      | None => Some (EvCrash, Worker tk (w_i w) Crashed, s)
      end
  | AtStore r old =>
      Some (EvMerge (key r) (value r), Worker tk (w_i w) (AtUnlock r),
            Store (<[key r := combine old (value r)]> (entries s)) (locks s))
  | AtUnlock r =>
      Some (EvUnlock (key r), Worker tk (S (w_i w)) AtTest,
            store_unlock (key r) s)
  | Returned | Crashed => None
  end.

(** The shared store and the pool of workers, indexed by thread. *)
Record state := State { st_store : store; workers : list worker }.

Definition step (t : nat) (st : state) : option (event * state) :=
  match workers st !! t with
  | Some w =>
      match step_worker t w (st_store st) with
      | Some (ev, w', s') => Some (ev, State s' (<[t := w']> (workers st)))
      | None => None
      end
  | None => None
  end.

(** A configuration: the events so far, each with its thread, and the
    state.  A schedule names the thread that is given the next step; a
    thread that cannot move lets its turn pass. *)
Definition config : Type := list (nat * event) * state.

Definition sched_step (t : nat) (c : config) : config :=
  match step t c.2 with
  | Some (ev, st') => (c.1 ++ [(t, ev)], st')
  | None => c
  end.

Fixpoint run (sched : list nat) (c : config) : config :=
  match sched with
  | [] => c
  | t :: sched' => run sched' (sched_step t c)
  end.

Definition is_returned (w : worker) : bool :=
  match w_pc w with Returned => true | _ => false end.

(** Every join of [exec] has succeeded: all workers have returned. *)
Definition finished (st : state) : bool := forallb is_returned (workers st).

(** Modelled from the spec: [start()] of [ulib/thread.h] runs [run()] once
    on a thread of its own, from its first line (sections 4.4 and 5). *)
Definition spawn (tk : task) : worker := Worker tk (_begin tk) AtTest.

(** The state [exec] hands to its workers: the output store holds [s0] and
    none of its locks is taken.  All the workers are in the pool from the
    start: a worker that [exec] has not started yet is a worker that has
    not been given a turn yet. *)
Definition init_state (s0 : gmap K V) (ts : list task) : state :=
  State (Store s0 ∅) (spawn <$> ts).

(** [job::exec(ntask)] with the output store holding [s0]: the tasks are
    built and started, and the workers run under the schedule. *)
Definition job_exec (ntask : Z) (s0 : gmap K V) (sched : list nat)
  : fault + config :=
  match exec_tasks dataset_size ntask with
  | inl e => inl e
  | inr ts => inr (run sched ([], init_state s0 ts))
  end.

(** The specification's reference result (spec section 8), to compare
    with the store [exec] leaves: a sequential fold applying Mapper then
    Combiner to every record in dataset order. *)
Definition merge_into (s : gmap K V) (k : K) (v : V) : gmap K V :=
  <[k := combine (default V0 (s !! k)) v]> s.

Definition sequential_fold (s0 : gmap K V) (recs : list Rec) : gmap K V :=
  foldl (fun s r => merge_into s (key r) (value r)) s0 recs.

(** *** Vocabulary of the statements *)

(** The records at positions [[b, e)] of the dataset, in dataset order. *)
Definition slice (b e : nat) : list Rec := take (e - b) (drop b dataset).

Definition task_records (tk : task) : list Rec :=
  slice (_begin tk) (_end tk).

(** The events of one iteration of the loop body on record [r], and of a
    whole run of [task::run] over a range. *)
Definition body_events (r : Rec) : list event :=
  [EvMap r; EvLock (key r); EvIndex (key r); EvLoad (key r);
   EvMerge (key r) (value r); EvUnlock (key r)].

Definition run_events (tk : task) : list event :=
  flat_map body_events (task_records tk) ++ [EvReturn].

(** The events of the iteration a worker is in the middle of. *)
Definition pc_events (p : pc) : list event :=
  match p with
  | AtTest => []
  | AtLock r => take 1 (body_events r)
  | AtIndex r => take 2 (body_events r)
  | AtLoad r => take 3 (body_events r)
  | AtStore r _ => take 4 (body_events r)
  | AtUnlock r => take 5 (body_events r)
  | Returned => [EvReturn]
  | Crashed => [EvCrash]
  end.

(** All the events a worker has produced since it was started. *)
Definition worker_events (w : worker) : list event :=
  flat_map body_events (slice (_begin (w_task w)) (w_i w))
  ++ pc_events (w_pc w).

(** The events of thread [t] in a trace, in order. *)
Definition thread_events (t : nat) (tr : list (nat * event)) : list event :=
  (filter (fun e => e.1 = t) tr).*2.

(** The merges of a trace, in the order they were applied to the store. *)
Definition merge_of (ev : event) : option (K * V) :=
  match ev with EvMerge k v => Some (k, v) | _ => None end.

Definition merges (tr : list (nat * event)) : list (K * V) :=
  omap merge_of tr.*2.

Definition fold_merges (s0 : gmap K V) (kvs : list (K * V)) : gmap K V :=
  foldl (fun s kv => merge_into s kv.1 kv.2) s0 kvs.

Definition key_value (r : Rec) : K * V := (key r, value r).

(** The record a worker has mapped and not yet finished with. *)
Definition at_record (w : worker) : option Rec :=
  match w_pc w with
  | AtLock r | AtIndex r | AtLoad r | AtStore r _ | AtUnlock r => Some r
  | _ => None
  end.

(** The key whose lock a worker holds: it is between [lock] and [unlock]. *)
Definition holds (w : worker) : option K :=
  match w_pc w with
  | AtIndex r | AtLoad r | AtStore r _ | AtUnlock r => Some (key r)
  | _ => None
  end.

(** The worker has a reference to entry [k] and has not yet written it. *)
Definition pending (w : worker) (k : K) : Prop :=
  match w_pc w with
  | AtLoad r | AtStore r _ => key r = k
  | _ => False
  end.

(** The key an event is about. *)
Definition event_key (ev : event) : option K :=
  match ev with
  | EvLock k | EvIndex k | EvLoad k | EvMerge k _ | EvUnlock k => Some k
  | _ => None
  end.

Definition range_ok (tk : task) : Prop :=
  (_begin tk <= _end tk <= length dataset)%nat.

(** What holds of a worker of thread [t] in every reachable state. *)
Record worker_ok (s : store) (t : nat) (w : worker) : Prop := {
  wk_range : (_begin (w_task w) <= w_i w <= _end (w_task w))%nat;
  wk_size : (_end (w_task w) <= length dataset)%nat;
  wk_rec : forall r, at_record w = Some r ->
             dataset !! w_i w = Some r /\ (w_i w < _end (w_task w))%nat;
  wk_lock : forall k, holds w = Some k -> locks s !! k = Some t;
  wk_entry : forall r, w_pc w = AtLoad r -> is_Some (entries s !! key r);
  wk_old : forall r old, w_pc w = AtStore r old ->
             entries s !! key r = Some old;
  wk_ret : w_pc w = Returned -> w_i w = _end (w_task w);
  wk_crash : w_pc w <> Crashed
}.

(** The invariant of the runs of the workers from a store holding [s0]. *)
Record inv (s0 : gmap K V) (c : config) : Prop := {
  inv_workers : forall t w, workers c.2 !! t = Some w ->
                  worker_ok (st_store c.2) t w;
  inv_events : forall t, thread_events t c.1 =
                 from_option worker_events [] (workers c.2 !! t);
  inv_locks : forall k t, locks (st_store c.2) !! k = Some t ->
                exists w, workers c.2 !! t = Some w /\ holds w = Some k;
  inv_merged : forall k v, fold_merges s0 (merges c.1) !! k = Some v ->
                 entries (st_store c.2) !! k = Some v;
  inv_fresh : forall k, fold_merges s0 (merges c.1) !! k = None ->
                entries (st_store c.2) !! k = None \/
                (entries (st_store c.2) !! k = Some V0 /\
                 exists t w, workers c.2 !! t = Some w /\ pending w k)
}.

(** The worker can take a step whatever the locks are. *)
Definition movable (w : worker) : bool :=
  match w_pc w with
  | AtTest | AtIndex _ | AtLoad _ | AtStore _ _ | AtUnlock _ => true
  | _ => false
  end.

(** Steps a worker still has to take (a bound on its running time). *)
Definition worker_fuel (w : worker) : nat :=
  let left := (_end (w_task w) - w_i w)%nat in
  match w_pc w with
  | AtTest => 6 * left + 1
  | AtLock _ => 6 * left
  | AtIndex _ => 6 * left - 1
  | AtLoad _ => 6 * left - 2
  | AtStore _ _ => 6 * left - 3
  | AtUnlock _ => 6 * left - 4
  | Returned | Crashed => 0
  end%nat.

Definition fuel (st : state) : nat := sum_list_with worker_fuel (workers st).
End Model.

(** A counting job: every record contributes 1 to the count of its key. *)
Definition count_value {Rec : Type} (r : Rec) : Z := 1.

(** The number of records of [recs] mapped to key [k]. *)
Definition records_with_key {Rec K : Type} `{EqDecision K}
    (key : Rec -> K) (k : K) (recs : list Rec) : Z :=
  Z.of_nat (length (filter (fun r => key r = k) recs)).

(** The count stored for key [k] (0 when the key has no entry). *)
Definition count_of {K : Type} `{Countable K} (s : gmap K Z) (k : K) : Z :=
  default 0 (s !! k).

(** A small job used to run the model: the records are numbers, the key of
    a record is its parity, its value the number itself. *)
Definition parity_key (r : nat) : nat := (r mod 2)%nat.
Definition number_value (r : nat) : Z := Z.of_nat r.
Definition sample_dataset : list nat := [1; 2; 3; 4; 5]%nat.

(** The schedule that gives [nthreads] threads a turn each, [rounds] times. *)
Definition round_robin (nthreads rounds : nat) : list nat :=
  concat (replicate rounds (seq 0 nthreads)).

(* ===================================================================== *)
(** ** The sequential part of [exec]: ranges and array accesses *)
(* ===================================================================== *)

Section ExecFacts.
Variables size ntask : Z.
Hypothesis Hntask : 1 <= ntask <= INT_MAX.
Hypothesis Hsize : 0 <= size <= SIZE_MAX.

Lemma to_size_t_small z : 0 <= z <= SIZE_MAX -> to_size_t z = z.
Proof. unfold to_size_t, SIZE_MAX. intros. apply Z.mod_small. lia. Qed.

Lemma chunk_mul_le i : 0 <= i <= ntask -> 0 <= size / ntask * i <= size.
Proof.
  intros Hi.
  assert (0 <= size / ntask) by (apply Z.div_pos; lia).
  split; [nia|].
  transitivity (size / ntask * ntask); [nia|].
  rewrite Z.mul_comm. apply Z.mul_div_le. lia.
Qed.

(** The offsets [exec] computes in [size_t] never wrap. *)
Lemma size_mul_chunk i :
  0 <= i <= ntask ->
  size_mul (size / ntask) (to_size_t i) = size / ntask * i.
Proof.
  intros Hi. unfold INT_MAX, SIZE_MAX in *.
  rewrite to_size_t_small by (unfold SIZE_MAX; lia).
  unfold size_mul. apply to_size_t_small. unfold SIZE_MAX.
  pose proof (chunk_mul_le i Hi). lia.
Qed.

Lemma for_each_inv (I : list Z -> heap -> Prop) l body :
  (forall done i h1, i ∈ l -> I done h1 ->
     exists h2, body i h1 = inr (tt, h2) /\ I (done ++ [i]) h2) ->
  forall pre h, I pre h ->
  exists h', for_each l body h = inr (tt, h') /\ I (pre ++ l) h'.
Proof.
  induction l as [|i l IH]; intros Hstep pre h HI; simpl.
  - exists h. by rewrite app_nil_r.
  - destruct (Hstep pre i h) as (h2 & Hb & HI2); [left|done|].
    unfold bind. rewrite Hb.
    destruct (IH (fun d j h1 Hj => Hstep d j h1 (list_elem_of_further _ _ _ Hj))
                 (pre ++ [i]) h2 HI2) as (h' & Hf & HI').
    exists h'. split; [done|]. by rewrite <- app_assoc in HI'.
Qed.

Lemma elem_of_seqZ_0 i n : i ∈ seqZ 0 n <-> 0 <= i < n.
Proof. rewrite elem_of_seqZ. lia. Qed.

Lemma seqZ_snoc n : 0 <= n -> seqZ 0 (n + 1) = seqZ 0 n ++ [n].
Proof. intros. rewrite seqZ_app by lia. f_equal. Qed.

(** What [exec] leaves behind: [ntask] slots, the accesses in program
    order, and the workers it started and joined. *)
Lemma exec_heap :
  exists h,
    exec size ntask empty_heap = inr (tt, h) /\
    length (tasks h) = Z.to_nat ntask /\
    accesses h = (Write <$> seqZ 0 ntask) ++ (Read <$> seqZ 0 ntask)
                 ++ (Read <$> seqZ 0 ntask) /\
    started h = work_range size ntask <$> seqZ 0 ntask /\
    deleted h = work_range size ntask <$> seqZ 0 ntask.
Proof.
  unfold exec, bind at 1, new_tasks.
  destruct (Z.ltb_spec ntask 0) as [?|_]; [lia|]. simpl.
  unfold bind at 1, size_div.
  rewrite (to_size_t_small ntask) by (unfold INT_MAX, SIZE_MAX in *; lia).
  destruct (Z.eqb_spec ntask 0) as [?|_]; [lia|]. unfold ret at 1.
  set (wr := work_range size ntask).
  (* the loop that fills slots 0 .. ntask-2 *)
  set (I1 := fun (done : list Z) (h : heap) =>
    length (tasks h) = Z.to_nat ntask /\ accesses h = Write <$> done /\
    started h = [] /\ deleted h = [] /\
    forall j, j ∈ done -> 0 <= j /\ tasks h !! Z.to_nat j = Some (Some (wr j))).
  unfold bind at 1, for_int.
  edestruct (for_each_inv I1 (seqZ 0 (ntask - 1))) with (pre := @nil Z)
    as (h1 & -> & (Hlen1 & Hacc1 & Hst1 & Hdel1 & Htk1)).
  { intros done i h [Hi0 Hi1]%elem_of_seqZ_0 (Hlen & Hacc & Hst & Hdel & Htk).
    unfold store_task, in_bounds. rewrite Hlen.
    destruct (Z.leb_spec 0 i); [|lia].
    destruct (Z.ltb_spec i (Z.of_nat (Z.to_nat ntask))); [|lia]. simpl.
    eexists; split; [reflexivity|].
    split_and!; simpl; try done.
    - by rewrite length_insert.
    - by rewrite Hacc, fmap_app.
    - intros j Hj. rewrite !size_mul_chunk by lia. unfold iter_plus. simpl.
      assert (wr i = Task (Z.to_nat (size / ntask * i))
                          (Z.to_nat (size / ntask * (i + 1)))) as Hwr.
      { unfold wr, work_range. destruct (Z.ltb_spec i (ntask - 1)); [done|lia]. }
      apply elem_of_app in Hj as [Hj|Hj%list_elem_of_singleton].
      + destruct (Htk j Hj) as [Hj0 Hjt]. split; [done|].
        destruct (decide (j = i)) as [->|Hne].
        * rewrite list_lookup_insert_eq by lia. by rewrite Hwr.
        * rewrite list_lookup_insert_ne by lia. done.
      + subst j. split; [done|].
        rewrite list_lookup_insert_eq by lia. by rewrite Hwr. }
  { split_and!; simpl; try done.
    - by rewrite length_replicate.
    - intros j Hj. by apply elem_of_nil in Hj. }
  simpl in *.
  (* the last slot *)
  unfold bind at 1, store_task, in_bounds. rewrite Hlen1.
  destruct (Z.leb_spec 0 (ntask - 1)); [|lia].
  destruct (Z.ltb_spec (ntask - 1) (Z.of_nat (Z.to_nat ntask))); [|lia]. simpl.
  rewrite size_mul_chunk by lia. unfold iter_plus. simpl.
  set (h2 := Heap _ _ _ _).
  assert (Htk2 : forall j, 0 <= j < ntask ->
                   tasks h2 !! Z.to_nat j = Some (Some (wr j))).
  { intros j Hj. simpl. destruct (decide (j = ntask - 1)) as [->|Hne].
    - rewrite list_lookup_insert_eq by lia.
      unfold wr, work_range. destruct (Z.ltb_spec (ntask - 1) (ntask - 1)); [lia|done].
    - rewrite list_lookup_insert_ne by lia.
      apply Htk1, elem_of_seqZ_0. lia. }
  assert (Hacc2 : accesses h2 = Write <$> seqZ 0 ntask).
  { simpl. rewrite Hacc1. replace ntask with (ntask - 1 + 1) at 3 by lia.
    rewrite seqZ_snoc by lia. by rewrite fmap_app. }
  assert (Hlen2 : length (tasks h2) = Z.to_nat ntask)
    by (simpl; by rewrite length_insert).
  assert (Hst2 : started h2 = []) by done.
  assert (Hdel2 : deleted h2 = []) by done.
  clearbody h2.
  (* the loop that starts the workers *)
  set (I3 := fun (done : list Z) (h : heap) =>
    tasks h = tasks h2 /\ accesses h = accesses h2 ++ (Read <$> done) /\
    started h = wr <$> done /\ deleted h = []).
  unfold bind at 1.
  edestruct (for_each_inv I3 (seqZ 0 ntask)) with (pre := @nil Z)
    as (h3 & -> & (Htk3 & Hacc3 & Hst3 & Hdel3)).
  { intros done i h [Hi0 Hi1]%elem_of_seqZ_0 (Htk & Hacc & Hst & Hdel).
    unfold bind, load_task, in_bounds. rewrite Htk, Hlen2, Htk2 by lia.
    destruct (Z.leb_spec 0 i); [|lia].
    destruct (Z.ltb_spec i (Z.of_nat (Z.to_nat ntask))); [|lia]. simpl.
    eexists; split; [reflexivity|].
    split_and!; simpl; try done.
    - by rewrite Hacc, fmap_app, app_assoc.
    - by rewrite Hst, fmap_app. }
  { split_and!; simpl; try done. by rewrite app_nil_r. }
  simpl in *.
  (* the loop that deletes (joins) them *)
  set (I4 := fun (done : list Z) (h : heap) =>
    tasks h = tasks h2 /\ accesses h = accesses h3 ++ (Read <$> done) /\
    started h = started h3 /\ deleted h = wr <$> done).
  edestruct (for_each_inv I4 (seqZ 0 ntask)) with (pre := @nil Z)
    as (h4 & -> & (Htk4 & Hacc4 & Hst4 & Hdel4)).
  { intros done i h [Hi0 Hi1]%elem_of_seqZ_0 (Htk & Hacc & Hst & Hdel).
    unfold bind, load_task, in_bounds. rewrite Htk, Hlen2, Htk2 by lia.
    destruct (Z.leb_spec 0 i); [|lia].
    destruct (Z.ltb_spec i (Z.of_nat (Z.to_nat ntask))); [|lia]. simpl.
    eexists; split; [reflexivity|].
    split_and!; simpl; try done.
    - by rewrite Hacc, fmap_app, app_assoc.
    - by rewrite Hdel, fmap_app. }
  { split_and!; simpl; try done. by rewrite app_nil_r. }
  simpl in *.
  exists h4. split; [done|].
  rewrite Htk4, Hlen2, Hacc4, Hacc3, Hacc2, Hst4, Hst3, Hdel4, <- app_assoc.
  done.
Qed.

Lemma exec_tasks_ranges :
  exec_tasks size ntask = inr (work_range size ntask <$> seqZ 0 ntask).
Proof.
  unfold exec_tasks. destruct exec_heap as (h & -> & _ & _ & -> & _). done.
Qed.

Lemma ranges_lookup (i : nat) tk :
  (work_range size ntask <$> seqZ 0 ntask) !! i = Some tk <->
  Z.of_nat i < ntask /\ tk = work_range size ntask (Z.of_nat i).
Proof.
  rewrite list_lookup_fmap_Some. setoid_rewrite lookup_seqZ.
  split; [intros (x & -> & -> & Hi)|intros [Hi ->]]; [done|eauto].
Qed.

Lemma work_range_begin i :
  0 <= i < ntask -> _begin (work_range size ntask i) = Z.to_nat (size / ntask * i).
Proof.
  intros Hi. unfold work_range.
  destruct (Z.ltb_spec i (ntask - 1)); simpl; [done|].
  by replace i with (ntask - 1) by lia.
Qed.

Lemma work_range_end i :
  0 <= i < ntask - 1 ->
  _end (work_range size ntask i) = Z.to_nat (size / ntask * (i + 1)).
Proof.
  intros Hi. unfold work_range. destruct (Z.ltb_spec i (ntask - 1)); [done|lia].
Qed.

Lemma work_range_end_last :
  _end (work_range size ntask (ntask - 1)) = Z.to_nat size.
Proof.
  unfold work_range. destruct (Z.ltb_spec (ntask - 1) (ntask - 1)); [lia|done].
Qed.

Lemma work_range_bounds i :
  0 <= i < ntask ->
  (_begin (work_range size ntask i) <= _end (work_range size ntask i)
   <= Z.to_nat size)%nat.
Proof.
  intros Hi. rewrite work_range_begin by done.
  destruct (decide (i = ntask - 1)) as [->|Hne].
  - rewrite work_range_end_last. pose proof (chunk_mul_le (ntask - 1)). lia.
  - rewrite work_range_end by lia.
    pose proof (chunk_mul_le i). pose proof (chunk_mul_le (i + 1)).
    assert (0 <= size / ntask) by (apply Z.div_pos; lia). nia.
Qed.

(** Consecutive ranges meet: the end of one is the begin of the next. *)
Lemma work_range_contiguous i :
  0 <= i < ntask - 1 ->
  _end (work_range size ntask i) = _begin (work_range size ntask (i + 1)).
Proof.
  intros Hi. rewrite work_range_end, work_range_begin by lia. done.
Qed.

(** Ranges of different workers do not overlap. *)
Lemma work_range_ordered i j :
  0 <= i < j -> j < ntask ->
  (_end (work_range size ntask i) <= _begin (work_range size ntask j))%nat.
Proof.
  intros Hi Hj. rewrite work_range_end, work_range_begin by lia.
  assert (0 <= size / ntask) by (apply Z.div_pos; lia).
  apply Z2Nat.inj_le; nia.
Qed.

Lemma work_range_disjoint i j p :
  0 <= i < ntask -> 0 <= j < ntask ->
  in_range p (work_range size ntask i) ->
  in_range p (work_range size ntask j) -> i = j.
Proof.
  unfold in_range. intros Hi Hj Hpi Hpj.
  destruct (Z.lt_trichotomy i j) as [Hlt|[?|Hlt]]; [|done|].
  - pose proof (work_range_ordered i j). lia.
  - pose proof (work_range_ordered j i). lia.
Qed.

(** Every position of the dataset lies in the range of some worker. *)
Lemma work_range_covers (p : nat) :
  (p < Z.to_nat size)%nat ->
  exists i, 0 <= i < ntask /\ in_range p (work_range size ntask i).
Proof.
  intros Hp. unfold in_range.
  assert (0 <= size / ntask) as Hc by (apply Z.div_pos; lia).
  destruct (decide (size / ntask * (ntask - 1) <= Z.of_nat p)) as [Hlast|Hin].
  - exists (ntask - 1). split; [lia|].
    rewrite work_range_begin, work_range_end_last by lia. lia.
  - assert (0 < size / ntask) as Hpos by nia.
    exists (Z.of_nat p / (size / ntask)).
    pose proof (Z.mul_div_le (Z.of_nat p) (size / ntask) Hpos).
    pose proof (Z.mul_succ_div_gt (Z.of_nat p) (size / ntask) Hpos).
    assert (0 <= Z.of_nat p / (size / ntask)) by (apply Z.div_pos; lia).
    assert (Z.of_nat p / (size / ntask) < ntask - 1) by nia.
    split; [lia|].
    rewrite work_range_begin, work_range_end by lia. lia.
Qed.
End ExecFacts.

(* ===================================================================== *)
(** ** Runs of the workers: the invariant *)
(* ===================================================================== *)

Section ModelFacts.
Context {Rec K V : Type} `{Countable K}.
Variables (key : Rec -> K) (value : Rec -> V) (V0 : V).
Variable combine : V -> V -> V.
Variable dataset : list Rec.

Local Abbreviation pc := (@pc Rec V).
Local Abbreviation event := (@event Rec K V).
Local Abbreviation worker := (@worker Rec V).
Local Abbreviation store := (@store K V _ _).
Local Abbreviation state := (@state Rec K V _ _).
Local Abbreviation config := (@config Rec K V _ _).
Local Abbreviation spawn := (@spawn Rec V).
Local Abbreviation init_state := (@init_state Rec K V _ _).
Local Abbreviation step_worker := (step_worker key value V0 combine dataset).
Local Abbreviation step := (step key value V0 combine dataset).
Local Abbreviation sched_step := (sched_step key value V0 combine dataset).
Local Abbreviation run := (run key value V0 combine dataset).
Local Abbreviation job_exec := (job_exec key value V0 combine dataset).
Local Abbreviation slice := (slice dataset).
Local Abbreviation task_records := (task_records dataset).
Local Abbreviation body_events := (body_events key value).
Local Abbreviation run_events := (run_events key value dataset).
Local Abbreviation pc_events := (pc_events key value).
Local Abbreviation worker_events := (worker_events key value dataset).
Local Abbreviation merge_into := (merge_into V0 combine).
Local Abbreviation fold_merges := (fold_merges V0 combine).
Local Abbreviation sequential_fold := (sequential_fold key value V0 combine).
Local Abbreviation key_value := (key_value key value).
Local Abbreviation holds := (holds key).
Local Abbreviation pending := (pending key).
Local Abbreviation worker_ok := (worker_ok key dataset).
Local Abbreviation inv := (inv key value V0 combine dataset).
Local Abbreviation range_ok := (range_ok dataset).
Local Abbreviation store_index := (store_index V0).
Local Abbreviation dataset_size := (dataset_size dataset).

Implicit Types (t : nat) (w : worker) (s : store) (st : state) (c : config)
  (tr : list (nat * event)) (r : Rec) (k : K) (tk : task).

(** *** Slices of the dataset *)

Lemma slice_nil b : slice b b = [].
Proof. unfold slice. by rewrite Nat.sub_diag. Qed.

Lemma slice_snoc b i r :
  (b <= i)%nat -> dataset !! i = Some r -> slice b (S i) = slice b i ++ [r].
Proof.
  intros Hb Hr. unfold slice.
  replace (S i - b)%nat with (S (i - b)) by lia.
  erewrite take_S_r; [done|].
  rewrite lookup_drop. by replace (b + (i - b))%nat with i by lia.
Qed.

Lemma slice_app b m e :
  (b <= m <= e)%nat -> slice b m ++ slice m e = slice b e.
Proof.
  intros Hm. unfold slice.
  replace (e - b)%nat with ((m - b) + (e - m))%nat by lia.
  rewrite <- take_take_drop, drop_drop.
  by replace (b + (m - b))%nat with m by lia.
Qed.

Lemma slice_all : slice 0 (length dataset) = dataset.
Proof. unfold slice. rewrite drop_0, Nat.sub_0_r. apply firstn_all. Qed.

(** *** Traces *)

Lemma thread_events_snoc t' tr t ev :
  thread_events t' (tr ++ [(t, ev)]) =
  thread_events t' tr ++ (if decide (t = t') then [ev] else []).
Proof.
  unfold thread_events. rewrite filter_app, fmap_app. f_equal.
  rewrite filter_cons, filter_nil. simpl. by repeat case_decide.
Qed.

Lemma merges_snoc tr t ev :
  merges (tr ++ [(t, ev)]) = merges tr ++ option_list (merge_of ev).
Proof.
  unfold merges. rewrite fmap_app, omap_app. simpl. by destruct (merge_of ev).
Qed.

Lemma merge_of_Some (ev : event) k v :
  merge_of ev = Some (k, v) -> ev = EvMerge k v.
Proof. destruct ev; simpl; intros; by simplify_eq. Qed.

Lemma fold_merges_snoc (s0 : gmap K V) kvs k v :
  fold_merges s0 (kvs ++ [(k, v)]) = merge_into (fold_merges s0 kvs) k v.
Proof. unfold fold_merges. by rewrite foldl_snoc. Qed.

(** *** One step of one worker *)

Ltac step_cases w Hstep :=
  unfold step_worker, store_lock, store_index, store_unlock in Hstep;
  destruct w as [?tk ?i [ | ?r | ?r | ?r | ?r ?old | ?r | | ]];
  simpl in *; repeat case_decide; repeat case_match; simplify_eq; simpl in *.

(** A worker that satisfies the invariant never crashes, and satisfies
    it after its step. *)
Lemma step_worker_ok t w s ev w' s' :
  worker_ok s t w ->
  step_worker t w s = Some (ev, w', s') ->
  worker_ok s' t w'.
Proof.
  intros [Hrange Hsize Hrec Hlock Hentry Hold Hret Hcrash] Hstep.
  step_cases w Hstep.
  - (* loop exit *) split; simpl; try done.
  - (* map *) split; simpl; try done.
    intros ? [= <-]. split; [done|lia].
  - (* iterator past the dataset *)
    match goal with Hn : dataset !! _ = None |- _ =>
      apply lookup_ge_None in Hn end. lia.
  - (* lock *)
    split; simpl; try done.
    intros ? [= <-]. by rewrite lookup_insert_eq.
  - (* index, entry present *)
    split; simpl; try done. intros ? [= <-].
    match goal with Hv : entries _ !! _ = Some _ |- _ => by rewrite Hv end.
  - (* index, entry created *)
    split; simpl; try done. intros ? [= <-]. by rewrite lookup_insert_eq.
  - (* load *)
    split; simpl; try done. by intros ? ? [= <- <-].
  - (* load through a dangling reference *)
    destruct (Hentry r eq_refl) as [? ?]. congruence.
  - (* store *)
    split; simpl; try done.
  - (* unlock *)
    destruct (Hrec r eq_refl) as [Hr Hlt].
    split; simpl; try done. lia.
Qed.

(** The step of one worker leaves alone what the other workers rely on:
    the locks they hold and the entries under those locks. *)
Lemma step_worker_frame t w s ev w' s' t' :
  worker_ok s t w ->
  step_worker t w s = Some (ev, w', s') ->
  t' <> t ->
  (forall k, locks s !! k = Some t' -> locks s' !! k = Some t') /\
  (forall k v, locks s !! k = Some t' -> entries s !! k = Some v ->
               entries s' !! k = Some v).
Proof.
  intros [Hrange Hsize Hrec Hlock Hentry Hold Hret Hcrash] Hstep Hne.
  step_cases w Hstep; try done.
  - (* lock *)
    split; [|done]. intros k Hk.
    rewrite lookup_insert_ne; [done|congruence].
  - (* index, entry created *)
    split; [done|]. intros k v _ Hv.
    rewrite lookup_insert_ne; [done|congruence].
  - (* store *)
    split; [done|]. intros k v Hk Hv.
    specialize (Hlock (key r) eq_refl).
    rewrite lookup_insert_ne; [done|congruence].
  - (* unlock *)
    split; [|done]. intros k Hk.
    specialize (Hlock (key r) eq_refl).
    rewrite lookup_delete_ne; [done|congruence].
Qed.

(** Every step appends its event to the events of the worker. *)
Lemma step_worker_events t w s ev w' s' :
  worker_ok s t w ->
  step_worker t w s = Some (ev, w', s') ->
  worker_events w' = worker_events w ++ [ev].
Proof.
  intros [Hrange Hsize Hrec Hlock Hentry Hold Hret Hcrash] Hstep.
  unfold worker_events.
  step_cases w Hstep; try (by rewrite <- app_assoc).
  - (* load through a dangling reference *)
    destruct (Hentry r eq_refl) as [? ?]. congruence.
  - (* unlock *)
    destruct (Hrec r eq_refl) as [Hr Hlt].
    rewrite (slice_snoc _ _ r) by (done || lia).
    rewrite flat_map_app, app_nil_r, <- app_assoc. simpl.
    by rewrite ?app_nil_r.
Qed.

(** Who holds which lock after a step. *)
Lemma step_worker_locks t w s ev w' s' :
  worker_ok s t w ->
  (forall k, locks s !! k = Some t -> holds w = Some k) ->
  step_worker t w s = Some (ev, w', s') ->
  forall k t', locks s' !! k = Some t' ->
    (t' = t /\ holds w' = Some k) \/ (t' <> t /\ locks s !! k = Some t').
Proof.
  intros [Hrange Hsize Hrec Hlock Hentry Hold Hret Hcrash] Hown Hstep k t' Hk.
  assert (t' = t -> locks s' = locks s -> holds w = Some k) as Hsame.
  { intros -> Heq. apply Hown. by rewrite <- Heq. }
  destruct (decide (t' = t)) as [->|Hne].
  - left. split; [done|].
    step_cases w Hstep; try (by apply Hsame).
    + (* lock *)
      destruct (decide (k = key r)) as [->|Hk']; [done|].
      rewrite lookup_insert_ne in Hk by done. by apply Hown in Hk.
    + (* load through a dangling reference *)
      destruct (Hentry r eq_refl) as [? ?]. congruence.
    + (* unlock *)
      destruct (decide (k = key r)) as [->|Hk'].
      * by rewrite lookup_delete_eq in Hk.
      * rewrite lookup_delete_ne in Hk by done. apply Hown in Hk.
        unfold holds in Hk. simpl in Hk. congruence.
  - right. split; [done|].
    step_cases w Hstep; try done.
    + (* lock *)
      destruct (decide (k = key r)) as [->|Hk'].
      * rewrite lookup_insert_eq in Hk. congruence.
      * by rewrite lookup_insert_ne in Hk.
    + (* unlock *)
      destruct (decide (k = key r)) as [->|Hk'].
      * by rewrite lookup_delete_eq in Hk.
      * by rewrite lookup_delete_ne in Hk.
Qed.

(** A step that is not a merge changes no existing entry; at most it
    default-constructs the entry the worker now refers to. *)
Lemma step_worker_entries t w s ev w' s' :
  worker_ok s t w ->
  step_worker t w s = Some (ev, w', s') ->
  merge_of ev = None ->
  (forall k v, entries s !! k = Some v -> entries s' !! k = Some v) /\
  (forall k, entries s !! k = None ->
     entries s' !! k = None \/ (entries s' !! k = Some V0 /\ pending w' k)) /\
  (forall k, pending w k -> pending w' k).
Proof.
  intros [Hrange Hsize Hrec Hlock Hentry Hold Hret Hcrash] Hstep Hev.
  step_cases w Hstep; try (split_and!; intros; by auto).
  - (* index, entry created *)
    split_and!; [| |done].
    + intros k v Hv. rewrite lookup_insert_ne; [done|congruence].
    + intros k Hk. destruct (decide (k = key r)) as [->|Hne].
      * right. by rewrite lookup_insert_eq.
      * left. by rewrite lookup_insert_ne.
  - (* load through a dangling reference *)
    destruct (Hentry r eq_refl) as [? ?]. congruence.
Qed.

(** The merge step replaces the value it loaded by the combined one; the
    worker holds the lock of the key throughout. *)
Lemma step_worker_merge t w s k v w' s' :
  worker_ok s t w ->
  step_worker t w s = Some (EvMerge k v, w', s') ->
  exists old,
    entries s !! k = Some old /\
    entries s' = <[k := combine old v]> (entries s) /\
    locks s' = locks s /\
    locks s !! k = Some t /\
    (forall k', pending w k' -> k' = k) /\
    (forall k', ~ pending w' k').
Proof.
  intros [Hrange Hsize Hrec Hlock Hentry Hold Hret Hcrash] Hstep.
  step_cases w Hstep.
  exists old. split_and!; try done.
  - by apply Hold.
  - by apply Hlock.
  - intros k' Hp. unfold pending in Hp. simpl in Hp. congruence.
Qed.

Lemma worker_ok_frame s s' t w :
  worker_ok s t w ->
  (forall k, locks s !! k = Some t -> locks s' !! k = Some t) ->
  (forall k v, locks s !! k = Some t -> entries s !! k = Some v ->
               entries s' !! k = Some v) ->
  worker_ok s' t w.
Proof.
  intros [Hrange Hsize Hrec Hlock Hentry Hold Hret Hcrash] Hl He.
  split; try done.
  - auto.
  - intros r Hr. destruct (Hentry r Hr) as [v Hv]. exists v.
    apply He; [|done]. apply Hlock. unfold holds. by rewrite Hr.
  - intros r old Hr. apply He; [|by apply Hold].
    apply Hlock. unfold holds. by rewrite Hr.
Qed.

(** *** The invariant holds along every schedule *)

Lemma sched_step_inv (s0 : gmap K V) t c :
  inv s0 c -> inv s0 (sched_step t c).
Proof.
  destruct c as [tr [s ws]]. intros [Hw Hev Hl Hm Hf].
  unfold sched_step, step. simpl in *.
  destruct (ws !! t) as [w|] eqn:Hwt; [|by split].
  destruct (step_worker t w s) as [[[ev w'] s']|] eqn:Hstep; [|by split].
  simpl.
  assert (Hlt : (t < length ws)%nat) by (by eapply lookup_lt_Some).
  pose proof (Hw t w Hwt) as Hok.
  assert (Hown : forall k, locks s !! k = Some t -> holds w = Some k).
  { intros k Hk. destruct (Hl k t Hk) as (w1 & Hw1 & Hh). by simplify_eq. }
  assert (Hlook : forall t1 w1, <[t:=w']> ws !! t1 = Some w1 ->
            (t1 = t /\ w1 = w') \/ (t1 <> t /\ ws !! t1 = Some w1)).
  { intros t1 w1. destruct (decide (t1 = t)) as [->|Hne].
    - rewrite list_lookup_insert_eq by done. intros [= <-]. by left.
    - rewrite list_lookup_insert_ne by done. by right. }
  assert (Hevs : forall t1, thread_events t1 (tr ++ [(t, ev)]) =
            from_option worker_events [] (<[t:=w']> ws !! t1)).
  { intros t1. rewrite thread_events_snoc, Hev.
    destruct (decide (t = t1)) as [<-|Hne].
    - rewrite list_lookup_insert_eq by done. rewrite Hwt. simpl.
      symmetry. by eapply step_worker_events.
    - rewrite list_lookup_insert_ne by done. by rewrite app_nil_r. }
  assert (Hws : forall t1 w1, <[t:=w']> ws !! t1 = Some w1 ->
            worker_ok s' t1 w1).
  { intros t1 w1 [[-> ->]|[Hne Hw1]]%Hlook.
    - by eapply step_worker_ok.
    - destruct (step_worker_frame _ _ _ _ _ _ t1 Hok Hstep Hne) as [Hfl Hfe].
      eapply worker_ok_frame; eauto. }
  assert (Hls : forall k t1, locks s' !! k = Some t1 ->
            exists w1, <[t:=w']> ws !! t1 = Some w1 /\ holds w1 = Some k).
  { intros k t1 Hk.
    destruct (step_worker_locks _ _ _ _ _ _ Hok Hown Hstep k t1 Hk)
      as [[-> Hh]|[Hne Hk']].
    - exists w'. by rewrite list_lookup_insert_eq.
    - destruct (Hl k t1 Hk') as (w1 & Hw1 & Hh). exists w1.
      by rewrite list_lookup_insert_ne. }
  destruct (merge_of ev) as [[k0 v0]|] eqn:Hmo.
  - (* the step merges [v0] into entry [k0] *)
    apply merge_of_Some in Hmo as ->.
    destruct (step_worker_merge _ _ _ _ _ _ _ Hok Hstep)
      as (old & Hold & Hent & Hlocks & Hlk & Hp & Hnp).
    assert (Hdef : default V0 (fold_merges s0 (merges tr) !! k0) = old).
    { destruct (fold_merges s0 (merges tr) !! k0) as [v1|] eqn:Hfm.
      - apply Hm in Hfm. simpl. congruence.
      - apply Hf in Hfm as [Hn|[Hs _]]; simpl; congruence. }
    split; simpl; try done.
    + intros k v. rewrite merges_snoc. simpl.
      rewrite fold_merges_snoc. unfold merge_into. rewrite Hdef, Hent.
      destruct (decide (k = k0)) as [->|Hne].
      * by rewrite !lookup_insert_eq.
      * rewrite !lookup_insert_ne by done. apply Hm.
    + intros k. rewrite merges_snoc. simpl.
      rewrite fold_merges_snoc. unfold merge_into. rewrite Hent.
      destruct (decide (k = k0)) as [->|Hne].
      * by rewrite !lookup_insert_eq.
      * rewrite !lookup_insert_ne by done.
        intros [Hn|(Hs & t1 & w1 & Hw1 & Hpw)]%Hf; [by left|right].
        split; [done|]. exists t1, w1. split; [|done].
        destruct (decide (t1 = t)) as [->|Hne1].
        -- simplify_eq. by apply Hp in Hpw.
        -- by rewrite list_lookup_insert_ne.
  - (* any other step *)
    destruct (step_worker_entries _ _ _ _ _ _ Hok Hstep Hmo)
      as (Hkeep & Hnew & Hpend).
    split; simpl; try done.
    + intros k v. rewrite merges_snoc, Hmo. simpl. rewrite app_nil_r.
      intros Hfm. by apply Hkeep, Hm.
    + intros k. rewrite merges_snoc, Hmo. simpl. rewrite app_nil_r.
      intros [Hn|(Hs & t1 & w1 & Hw1 & Hpw)]%Hf.
      * destruct (Hnew k Hn) as [?|[? ?]]; [by left|right].
        split; [done|]. exists t, w'. by rewrite list_lookup_insert_eq.
      * right. split; [by apply Hkeep|].
        destruct (decide (t1 = t)) as [->|Hne1].
        -- simplify_eq. exists t, w'.
           rewrite list_lookup_insert_eq by done. auto.
        -- exists t1, w1. by rewrite list_lookup_insert_ne.
Qed.

Lemma run_inv (s0 : gmap K V) sched c : inv s0 c -> inv s0 (run sched c).
Proof.
  revert c. induction sched as [|t sched IH]; intros c Hc; simpl; [done|].
  by apply IH, sched_step_inv.
Qed.

Lemma worker_events_spawn tk : worker_events (spawn tk) = [].
Proof. unfold worker_events. simpl. by rewrite slice_nil. Qed.

Lemma init_inv (s0 : gmap K V) ts :
  Forall range_ok ts -> inv s0 ([], init_state s0 ts).
Proof.
  intros Hts. split; simpl.
  - intros t w (tk & -> & Htk)%list_lookup_fmap_Some.
    rewrite Forall_lookup in Hts. specialize (Hts t tk Htk).
    unfold range_ok in Hts. split; simpl; try done; lia.
  - intros t. rewrite list_lookup_fmap.
    destruct (ts !! t); simpl; [|done]. by rewrite worker_events_spawn.
  - intros k t. by rewrite lookup_empty.
  - done.
  - by left.
Qed.

(** The task object of a worker is never reassigned. *)
Lemma step_worker_task t w s ev w' s' :
  step_worker t w s = Some (ev, w', s') -> w_task w' = w_task w.
Proof. intros Hstep. by step_cases w Hstep. Qed.

Lemma sched_step_tasks t c :
  w_task <$> workers (sched_step t c).2 = w_task <$> workers c.2.
Proof.
  destruct c as [tr [s ws]]. unfold sched_step, step. simpl.
  destruct (ws !! t) as [w|] eqn:Hwt; [|done].
  destruct (step_worker t w s) as [[[ev w'] s']|] eqn:Hstep; [|done].
  simpl. rewrite list_fmap_insert.
  rewrite (step_worker_task _ _ _ _ _ _ Hstep).
  apply list_insert_id. by rewrite list_lookup_fmap, Hwt.
Qed.

Lemma run_tasks sched c :
  w_task <$> workers (run sched c).2 = w_task <$> workers c.2.
Proof.
  revert c. induction sched as [|t sched IH]; intros c; simpl; [done|].
  by rewrite IH, sched_step_tasks.
Qed.

Lemma init_tasks (s0 : gmap K V) ts :
  w_task <$> workers (init_state s0 ts) = ts.
Proof.
  simpl. induction ts as [|tk ts IH]; [done|].
  rewrite !fmap_cons. by rewrite IH.
Qed.

(** *** Progress and termination *)

Lemma finished_spec st :
  finished st = true <->
  forall t w, workers st !! t = Some w -> w_pc w = Returned.
Proof.
  unfold finished. rewrite forallb_forall. split.
  - intros Hall t w Hw.
    assert (is_returned w = true) as Hr.
    { apply Hall, list_elem_of_In, list_elem_of_lookup. eauto. }
    unfold is_returned in Hr. by destruct (w_pc w).
  - intros Hall w [t Hw]%list_elem_of_In%list_elem_of_lookup.
    unfold is_returned. by rewrite (Hall t w Hw).
Qed.

Lemma movable_steps t w s :
  movable w = true -> is_Some (step_worker t w s).
Proof.
  unfold movable, step_worker. destruct w as [tk i p]; simpl.
  destruct p; intros; try done; repeat case_decide; repeat case_match; eauto.
Qed.

(** No deadlock: while some worker has not returned, some worker can
    take a step. *)
Lemma progress (s0 : gmap K V) c :
  inv s0 c -> finished c.2 = false ->
  exists t ev st', step t c.2 = Some (ev, st').
Proof.
  destruct c as [tr [s ws]]. intros [Hw Hev Hl Hm Hf] Hfin. simpl in *.
  assert (Hgo : forall t w, ws !! t = Some w -> is_Some (step_worker t w s) ->
            exists t ev st', step t (State s ws) = Some (ev, st')).
  { intros t w Hwt [[[ev w'] s'] Hs]. exists t, ev.
    unfold step. simpl. rewrite Hwt, Hs. eauto. }
  destruct (decide (Exists (fun w => movable w = true) ws)) as [Hex|Hnex].
  - apply Exists_exists in Hex as (w & [t Hwt]%list_elem_of_lookup & Hmv).
    eapply Hgo; [done|]. by apply movable_steps.
  - apply not_Exists_Forall in Hnex; [|intros w; apply _].
    rewrite Forall_lookup in Hnex.
    unfold finished in Hfin.
    apply not_true_iff_false in Hfin. rewrite forallb_forall in Hfin.
    assert (exists t w, ws !! t = Some w /\ is_returned w = false)
      as (t & w & Hwt & Hnr).
    { destruct (decide (Exists (fun w => is_returned w = false) ws))
        as [Hex|Hall].
      - apply Exists_exists in Hex as (w & [t Hwt]%list_elem_of_lookup & ?).
        eauto.
      - exfalso. apply Hfin. intros w Hin%list_elem_of_In.
        apply not_Exists_Forall in Hall; [|intros ?; apply _].
        rewrite Forall_forall in Hall. specialize (Hall w Hin). simpl in Hall.
        by destruct (is_returned w). }
    pose proof (Hnex t w Hwt) as Hnm. simpl in Hnm.
    pose proof (wk_crash _ _ _ _ _ (Hw t w Hwt)) as Hnc.
    eapply Hgo; [done|].
    unfold movable in Hnm. unfold is_returned in Hnr.
    unfold step_worker, store_lock. destruct w as [tk i p]; simpl in *.
    destruct p; try done.
    destruct (locks s !! key r) as [t'|] eqn:Hlk; [|eauto].
    destruct (Hl _ _ Hlk) as (w' & Hw' & Hh).
    specialize (Hnex t' w' Hw'). simpl in Hnex.
    unfold holds in Hh. unfold movable in Hnex. by destruct (w_pc w').
Qed.

Lemma sum_list_with_insert {A} (f : A -> nat) (l : list A) i x y :
  l !! i = Some x ->
  (sum_list_with f (<[i:=y]> l) + f x = sum_list_with f l + f y)%nat.
Proof.
  revert i. induction l as [|a l IH]; intros [|i] Hi; simplify_eq/=; [lia|].
  specialize (IH i Hi). lia.
Qed.

Lemma step_worker_fuel t w s ev w' s' :
  worker_ok s t w ->
  step_worker t w s = Some (ev, w', s') ->
  (worker_fuel w' < worker_fuel w)%nat.
Proof.
  intros [Hrange Hsize Hrec Hlock Hentry Hold Hret Hcrash] Hstep.
  unfold worker_fuel.
  step_cases w Hstep;
    try (destruct (Hrec _ eq_refl) as [_ Hlt]); lia.
Qed.

Lemma step_fuel (s0 : gmap K V) c t ev st' :
  inv s0 c -> step t c.2 = Some (ev, st') -> (fuel st' < fuel c.2)%nat.
Proof.
  destruct c as [tr [s ws]]. intros [Hw _ _ _ _]. unfold step, fuel. simpl in *.
  destruct (ws !! t) as [w|] eqn:Hwt; [|done].
  destruct (step_worker t w s) as [[[ev' w'] s']|] eqn:Hstep; [|done].
  intros [= <- <-]. simpl.
  pose proof (step_worker_fuel _ _ _ _ _ _ (Hw t w Hwt) Hstep).
  pose proof (sum_list_with_insert worker_fuel ws t w w' Hwt). lia.
Qed.

(** Every reachable configuration can be run to completion. *)
Lemma exists_schedule (s0 : gmap K V) c :
  inv s0 c -> exists sched, finished (run sched c).2 = true.
Proof.
  remember (fuel c.2) as n eqn:Hn. revert c Hn.
  induction n as [n IH] using lt_wf_ind. intros c -> Hc.
  destruct (finished c.2) eqn:Hfin; [by exists []|].
  destruct (progress s0 c Hc Hfin) as (t & ev & st' & Hstep).
  destruct (IH (fuel st') (step_fuel _ _ _ _ _ Hc Hstep)
               (sched_step t c)) as [sched Hs].
  - unfold sched_step. by rewrite Hstep.
  - by apply sched_step_inv.
  - by exists (t :: sched).
Qed.

(** *** The store when every worker has returned *)

Lemma finished_entries (s0 : gmap K V) c :
  inv s0 c -> finished c.2 = true ->
  entries (st_store c.2) = fold_merges s0 (merges c.1).
Proof.
  intros [Hw Hev Hl Hm Hf] Hfin. rewrite finished_spec in Hfin.
  apply map_eq. intros k.
  destruct (fold_merges s0 (merges c.1) !! k) as [v|] eqn:Hk; [by apply Hm|].
  destruct (Hf k Hk) as [?|(_ & t & w & Hwt & Hp)]; [done|].
  unfold pending in Hp. by rewrite (Hfin t w Hwt) in Hp.
Qed.

Lemma finished_locks (s0 : gmap K V) c :
  inv s0 c -> finished c.2 = true -> locks (st_store c.2) = ∅.
Proof.
  intros [Hw Hev Hl Hm Hf] Hfin. rewrite finished_spec in Hfin.
  apply map_eq. intros k. rewrite lookup_empty.
  destruct (locks (st_store c.2) !! k) as [t|] eqn:Hk; [|done].
  destruct (Hl k t Hk) as (w & Hwt & Hh).
  unfold holds in Hh. by rewrite (Hfin t w Hwt) in Hh.
Qed.

Lemma finished_worker_events (s0 : gmap K V) c t w :
  inv s0 c -> finished c.2 = true -> workers c.2 !! t = Some w ->
  worker_events w = run_events (w_task w).
Proof.
  intros [Hw Hev Hl Hm Hf] Hfin Hwt. rewrite finished_spec in Hfin.
  pose proof (Hfin t w Hwt) as Hpc.
  pose proof (wk_ret _ _ _ _ _ (Hw t w Hwt) Hpc) as Hi.
  unfold worker_events, run_events, task_records. by rewrite Hpc, Hi.
Qed.

(** *** A trace is an interleaving of the events of its threads *)

Lemma thread_events_cons t t0 ev tr :
  thread_events t ((t0, ev) :: tr) =
  (if decide (t0 = t) then [ev] else []) ++ thread_events t tr.
Proof.
  unfold thread_events. rewrite filter_cons. simpl. by case_decide.
Qed.

Lemma concat_fmap_add_one {A} (f : nat -> list A) (x : A) t0 (l : list nat) :
  NoDup l -> t0 ∈ l ->
  concat ((fun t => (if decide (t0 = t) then [x] else []) ++ f t) <$> l)
  ≡ₚ x :: concat (f <$> l).
Proof.
  induction l as [|a l IH]; intros Hnd Hin; [by apply elem_of_nil in Hin|].
  apply NoDup_cons in Hnd as [Hna Hnd]. rewrite !fmap_cons. simpl.
  destruct (decide (t0 = a)) as [->|Hne].
  - simpl. rewrite (list_fmap_ext _ f l); [done|].
    intros i t Ht. case_decide; [|done].
    subst. apply list_elem_of_lookup_2 in Ht. done.
  - apply elem_of_cons in Hin as [?|Hin]; [done|].
    simpl. rewrite IH by done. by rewrite Permutation_middle.
Qed.

Lemma trace_by_thread tr n :
  (forall t, (n <= t)%nat -> thread_events t tr = []) ->
  tr.*2 ≡ₚ concat ((fun t => thread_events t tr) <$> seq 0 n).
Proof.
  induction tr as [|[t0 ev] tr IH]; intros Hn.
  - simpl. induction (seq 0 n) as [|a l IHl]; [done|]. by rewrite fmap_cons.
  - assert (t0 < n)%nat as Ht0.
    { destruct (decide (t0 < n)%nat); [done|].
      assert (n <= t0)%nat as Hge by lia. apply Hn in Hge.
      rewrite thread_events_cons in Hge. by case_decide. }
    rewrite fmap_cons. simpl.
    rewrite (list_fmap_ext _ (fun t => (if decide (t0 = t) then [ev] else [])
                                ++ thread_events t tr) (seq 0 n)); last first.
    { intros i t _. apply thread_events_cons. }
    rewrite concat_fmap_add_one.
    + f_equiv. apply IH. intros t Ht. specialize (Hn t Ht).
      rewrite thread_events_cons in Hn. by apply app_eq_nil in Hn as [_ ?].
    + apply NoDup_seq.
    + apply elem_of_seq. lia.
Qed.

Lemma fmap_seq_lookup {A B} (f : A -> list B) (l : list A) :
  (fun t => from_option f [] (l !! t)) <$> seq 0 (length l) = f <$> l.
Proof.
  apply list_eq. intros i. rewrite !list_lookup_fmap.
  destruct (l !! i) as [x|] eqn:Hi; simpl.
  - rewrite lookup_seq_lt by (by eapply lookup_lt_Some). simpl. by rewrite Hi.
  - rewrite lookup_seq_ge; [done|]. by apply lookup_ge_None.
Qed.

(** In every reachable configuration the trace is a permutation of the
    events of the workers. *)
Lemma trace_by_worker (s0 : gmap K V) c :
  inv s0 c -> c.1.*2 ≡ₚ concat (worker_events <$> workers c.2).
Proof.
  intros [Hw Hev Hl Hm Hf].
  rewrite (trace_by_thread c.1 (length (workers c.2))).
  - rewrite <- (fmap_seq_lookup worker_events (workers c.2)).
    erewrite list_fmap_ext; [done|]. intros i t _. apply Hev.
  - intros t Ht. rewrite Hev.
    by rewrite (proj2 (lookup_ge_None _ _) Ht).
Qed.

(** With one worker the trace is the events of that worker, in order. *)
Lemma trace_single_thread tr :
  (forall t, t <> 0%nat -> thread_events t tr = []) ->
  tr.*2 = thread_events 0 tr.
Proof.
  induction tr as [|[t0 ev] tr IH]; intros Hn; [done|].
  assert (t0 = 0%nat) as ->.
  { destruct (decide (t0 = 0%nat)) as [|Hne]; [done|].
    apply Hn in Hne. rewrite thread_events_cons in Hne. by case_decide. }
  rewrite thread_events_cons, fmap_cons. simpl. f_equal.
  apply IH. intros t Ht. specialize (Hn t Ht).
  rewrite thread_events_cons in Hn. by apply app_eq_nil in Hn as [_ ?].
Qed.

Lemma omap_concat {A B} (f : A -> option B) (ls : list (list A)) :
  omap f (concat ls) = concat ((fun l : list A => omap f l) <$> ls).
Proof.
  induction ls as [|l ls IH]; [done|].
  rewrite fmap_cons. simpl. by rewrite omap_app, IH.
Qed.

(** The merges of a whole run of [task::run] are the key/value pairs of
    the records of its range, in dataset order. *)
Lemma merges_body_events (recs : list Rec) :
  omap merge_of (flat_map body_events recs) = key_value <$> recs.
Proof.
  induction recs as [|r l IH]; [done|].
  change (flat_map body_events (r :: l))
    with (body_events r ++ flat_map body_events l).
  by rewrite omap_app, IH.
Qed.

Lemma merges_run_events tk :
  omap merge_of (run_events tk) = key_value <$> task_records tk.
Proof.
  unfold run_events. rewrite omap_app, merges_body_events. simpl.
  by rewrite app_nil_r.
Qed.

Lemma fold_merges_key_value (s0 : gmap K V) recs :
  fold_merges s0 (key_value <$> recs) = sequential_fold s0 recs.
Proof. unfold fold_merges, sequential_fold. by rewrite foldl_fmap. Qed.

(** When every worker has returned, the merges applied to the store are
    a permutation of the key/value pairs of the records of all ranges;
    with a single worker they are those pairs in dataset order. *)
Lemma finished_merges (s0 : gmap K V) ts sched c :
  Forall range_ok ts ->
  c = run sched ([], init_state s0 ts) ->
  finished c.2 = true ->
  merges c.1 ≡ₚ key_value <$> concat (task_records <$> ts) /\
  (length ts = 1%nat ->
   merges c.1 = key_value <$> concat (task_records <$> ts)).
Proof.
  intros Hts -> Hfin.
  set (c := run sched ([], init_state s0 ts)) in *.
  assert (Hc : inv s0 c) by (by apply run_inv, init_inv).
  assert (Htasks : w_task <$> workers c.2 = ts).
  { unfold c. rewrite run_tasks. exact (init_tasks s0 ts). }
  assert (Hwe : worker_events <$> workers c.2 = run_events <$> ts).
  { rewrite <- Htasks, <- list_fmap_compose. apply list_fmap_ext.
    intros t w Hwt. simpl. by eapply finished_worker_events. }
  assert (Hkv : concat ((fun l : list event => omap merge_of l)
                          <$> (run_events <$> ts))
                = key_value <$> concat (task_records <$> ts)).
  { clear. induction ts as [|tk ts IH]; [done|].
    rewrite !fmap_cons. simpl. by rewrite fmap_app, merges_run_events, IH. }
  split.
  - unfold merges. rewrite (trace_by_worker s0 c Hc), Hwe, omap_concat.
    by rewrite Hkv.
  - intros Hlen. unfold merges. rewrite trace_single_thread.
    + destruct Hc as [_ Hev _ _ _]. rewrite Hev.
      destruct ts as [|tk [|? ?]]; try done.
      destruct (workers c.2) as [|w [|? ?]] eqn:Hws; try done.
      injection Hwe as Hwe. simpl. rewrite Hwe, merges_run_events.
      simpl. by rewrite app_nil_r.
    + intros t Ht. destruct Hc as [_ Hev _ _ _]. rewrite Hev.
      assert (length (workers c.2) = 1%nat) as Hl.
      { by rewrite <- (length_fmap w_task), Htasks. }
      rewrite (proj2 (lookup_ge_None _ _)); [done|lia].
Qed.

(** *** Merging in another order *)

Lemma merge_into_swap (m : gmap K V) k1 v1 k2 v2 :
  (forall x y, combine x y = combine y x) ->
  (forall x y z, combine (combine x y) z = combine x (combine y z)) ->
  merge_into (merge_into m k1 v1) k2 v2 = merge_into (merge_into m k2 v2) k1 v1.
Proof.
  intros Hcomm Hassoc. unfold merge_into.
  destruct (decide (k1 = k2)) as [->|Hne].
  - rewrite !lookup_insert_eq, !insert_insert_eq. simpl.
    by rewrite !Hassoc, (Hcomm v1 v2).
  - rewrite !lookup_insert_ne by done. by apply insert_insert_ne.
Qed.

(** A commutative and associative combiner makes the fold of the merges
    independent of their order. *)
Lemma fold_merges_perm (s0 : gmap K V) kvs1 kvs2 :
  (forall x y, combine x y = combine y x) ->
  (forall x y z, combine (combine x y) z = combine x (combine y z)) ->
  kvs1 ≡ₚ kvs2 -> fold_merges s0 kvs1 = fold_merges s0 kvs2.
Proof.
  intros Hcomm Hassoc Hperm. revert s0.
  induction Hperm as [|[k v] l1 l2 _ IH|[k1 v1] [k2 v2] l|l1 l2 l3 _ IH1 _ IH2];
    intros s0; simpl.
  - done.
  - apply IH.
  - by rewrite merge_into_swap.
  - by rewrite IH1.
Qed.

(** *** What a worker has done is a prefix of its whole run *)

Lemma slice_cons i e r :
  (i < e)%nat -> dataset !! i = Some r -> slice i e = r :: slice (S i) e.
Proof.
  intros Hlt Hr. rewrite <- (slice_app i (S i) e) by lia.
  rewrite (slice_snoc i i r) by done. by rewrite slice_nil.
Qed.

Lemma worker_events_prefix s t w :
  worker_ok s t w -> worker_events w `prefix_of` run_events (w_task w).
Proof.
  intros [Hrange Hsize Hrec Hlock Hentry Hold Hret Hcrash].
  unfold worker_events, run_events, task_records.
  rewrite <- (slice_app (_begin (w_task w)) (w_i w) (_end (w_task w))) by done.
  rewrite flat_map_app, <- app_assoc. apply prefix_app.
  destruct w as [tk i p]; simpl in *.
  destruct p; simpl;
    try (destruct (Hrec _ eq_refl) as [Hr Hlt];
         rewrite (slice_cons _ _ _ Hlt Hr); simpl).
  - apply prefix_nil.
  - by eexists.
  - by eexists.
  - by eexists.
  - by eexists.
  - by eexists.
  - rewrite Hret by done. by rewrite slice_nil.
  - done.
Qed.

(** *** A worker that has returned stays where it is *)

Lemma sched_step_returned t0 c t w :
  workers c.2 !! t = Some w -> w_pc w = Returned ->
  workers (sched_step t0 c).2 !! t = Some w.
Proof.
  destruct c as [tr [s ws]]. unfold sched_step, step. simpl. intros Hwt Hpc.
  destruct (ws !! t0) as [w0|] eqn:Hw0; [|done].
  destruct (step_worker t0 w0 s) as [[[ev w'] s']|] eqn:Hstep; [|done].
  simpl. destruct (decide (t0 = t)) as [->|Hne].
  - simplify_eq. unfold step_worker in Hstep. by rewrite Hpc in Hstep.
  - by rewrite list_lookup_insert_ne.
Qed.

(** *** The ranges of [exec] cut the dataset into consecutive pieces *)

Lemma concat_task_records (rng : Z -> task) (k : nat) :
  (forall i, 0 <= i <= Z.of_nat k -> (_begin (rng i) <= _end (rng i))%nat) ->
  (forall i, 0 <= i < Z.of_nat k -> _end (rng i) = _begin (rng (i + 1))) ->
  (_begin (rng 0%Z) <= _end (rng (Z.of_nat k)))%nat /\
  concat (task_records <$> (rng <$> seqZ 0 (Z.of_nat (S k))))
  = slice (_begin (rng 0)) (_end (rng (Z.of_nat k))).
Proof.
  induction k as [|k IH]; intros Hle Hnext.
  - split; [apply Hle; lia|]. simpl. by rewrite app_nil_r.
  - destruct IH as [IH1 IH2].
    { intros i Hi. apply Hle. lia. }
    { intros i Hi. apply Hnext. lia. }
    assert (_end (rng (Z.of_nat k)) = _begin (rng (Z.of_nat (S k)))) as Hmid.
    { rewrite Hnext by lia. f_equal. f_equal. lia. }
    pose proof (Hle (Z.of_nat (S k))) as Hlast.
    split; [lia|].
    replace (Z.of_nat (S (S k))) with (Z.of_nat (S k) + 1) by lia.
    rewrite seqZ_snoc by lia. rewrite !fmap_app, concat_app, IH2. simpl.
    rewrite app_nil_r.
    change (task_records (rng (Z.of_nat (S k))))
      with (slice (_begin (rng (Z.of_nat (S k)))) (_end (rng (Z.of_nat (S k))))).
    rewrite <- Hmid. apply slice_app. lia.
Qed.

Section Exec.
Variable ntask : Z.
Hypothesis Hntask : 1 <= ntask <= INT_MAX.
Hypothesis Hsize : dataset_size <= SIZE_MAX.

Local Abbreviation ranges :=
  (work_range dataset_size ntask <$> seqZ 0 ntask).

Lemma dataset_size_nonneg : 0 <= dataset_size <= SIZE_MAX.
Proof. unfold dataset_size in *. lia. Qed.

Lemma ranges_ok : Forall range_ok ranges.
Proof.
  apply Forall_fmap, Forall_forall. intros i [Hi0 Hi1]%elem_of_seqZ_0.
  simpl. unfold range_ok.
  pose proof (work_range_bounds dataset_size ntask Hntask
                dataset_size_nonneg i ltac:(lia)) as Hb.
  assert (Z.to_nat dataset_size = length dataset) as Hlen
    by (unfold dataset_size; lia).
  lia.
Qed.

(** Every record is in the range of exactly one worker, and the ranges
    taken in worker order spell out the dataset. *)
Lemma ranges_concat : concat (task_records <$> ranges) = dataset.
Proof.
  pose proof dataset_size_nonneg as Hs.
  destruct (concat_task_records (work_range dataset_size ntask)
              (Z.to_nat (ntask - 1))) as [_ Hc].
  - intros i Hi. apply work_range_bounds; (done || lia).
  - intros i Hi. apply work_range_contiguous; lia.
  - replace (Z.of_nat (S (Z.to_nat (ntask - 1)))) with ntask in Hc by lia.
    rewrite Hc.
    rewrite work_range_begin by lia.
    replace (Z.of_nat (Z.to_nat (ntask - 1))) with (ntask - 1) by lia.
    rewrite work_range_end_last by lia.
    rewrite Z.mul_0_r. unfold dataset_size. rewrite Nat2Z.id.
    apply slice_all.
Qed.

Lemma job_exec_run (s0 : gmap K V) sched :
  job_exec ntask s0 sched = inr (run sched ([], init_state s0 ranges)).
Proof.
  unfold job_exec.
  by rewrite (exec_tasks_ranges _ _ Hntask dataset_size_nonneg).
Qed.

Lemma job_exec_inv (s0 : gmap K V) sched c :
  job_exec ntask s0 sched = inr c -> inv s0 c.
Proof.
  rewrite job_exec_run. intros [= <-]. apply run_inv, init_inv, ranges_ok.
Qed.

(** [exec] can always be run to the end: no schedule gets stuck. *)
Lemma job_exec_completes (s0 : gmap K V) sched :
  exists sched' c,
    job_exec ntask s0 (sched ++ sched') = inr c /\ finished c.2 = true.
Proof.
  destruct (exists_schedule s0 (run sched ([], init_state s0 ranges)))
    as [sched' Hfin]; [apply run_inv, init_inv, ranges_ok|].
  exists sched', (run (sched ++ sched') ([], init_state s0 ranges)).
  split; [apply job_exec_run|].
  assert (forall l1 l2 c, run (l1 ++ l2) c = run l2 (run l1 c)) as Happ.
  { clear. induction l1 as [|t l1 IH]; intros l2 c; simpl; [done|apply IH]. }
  by rewrite Happ.
Qed.

(** The output store once [exec] has returned. *)
Lemma job_exec_finished (s0 : gmap K V) sched c :
  job_exec ntask s0 sched = inr c -> finished c.2 = true ->
  entries (st_store c.2) = fold_merges s0 (merges c.1) /\
  merges c.1 ≡ₚ key_value <$> dataset /\
  (ntask = 1 -> merges c.1 = key_value <$> dataset).
Proof.
  intros Hc Hfin. pose proof (job_exec_inv _ _ _ Hc) as Hinv.
  rewrite job_exec_run in Hc. injection Hc as Hc. symmetry in Hc.
  destruct (finished_merges s0 ranges sched c ranges_ok Hc Hfin)
    as [Hperm Hone].
  rewrite ranges_concat in Hperm, Hone.
  split_and!; [by apply finished_entries|done|].
  intros ->. by apply Hone.
Qed.

(** A commutative and associative combiner: the output store is the
    sequential fold, whatever the ranges and the interleaving. *)
Lemma job_exec_finished_comm (s0 : gmap K V) sched c :
  (forall x y, combine x y = combine y x) ->
  (forall x y z, combine (combine x y) z = combine x (combine y z)) ->
  job_exec ntask s0 sched = inr c -> finished c.2 = true ->
  entries (st_store c.2) = sequential_fold s0 dataset.
Proof.
  intros Hcomm Hassoc Hc Hfin.
  destruct (job_exec_finished s0 sched c Hc Hfin) as (-> & Hperm & _).
  rewrite <- fold_merges_key_value. by apply fold_merges_perm.
Qed.

(** The worker of thread [t] runs the range of worker [t]; its events
    are a prefix of the whole run over that range, and the whole run
    once it has returned. *)
Lemma job_exec_worker (s0 : gmap K V) sched c t w :
  job_exec ntask s0 sched = inr c -> workers c.2 !! t = Some w ->
  w_task w = work_range dataset_size ntask (Z.of_nat t) /\
  Z.of_nat t < ntask /\
  thread_events t c.1 `prefix_of` run_events (w_task w) /\
  (w_pc w = Returned -> thread_events t c.1 = run_events (w_task w)).
Proof.
  intros Hc Hwt. pose proof (job_exec_inv _ _ _ Hc) as Hinv.
  rewrite job_exec_run in Hc. injection Hc as Hc.
  assert (w_task <$> workers c.2 = ranges) as Htasks.
  { rewrite <- Hc, run_tasks. exact (init_tasks s0 ranges). }
  assert (ranges !! t = Some (w_task w)) as [Ht Hrng]%ranges_lookup.
  { by rewrite <- Htasks, list_lookup_fmap, Hwt. }
  destruct Hinv as [Hw Hev _ _ _]. rewrite Hev, Hwt. simpl.
  pose proof (Hw t w Hwt) as Hok.
  split_and!; try done.
  - by eapply worker_events_prefix.
  - intros Hpc. unfold worker_events, run_events, task_records.
    by rewrite Hpc, (wk_ret _ _ _ _ _ Hok Hpc).
Qed.
End Exec.

(** *** What one step does to the store *)

Lemma step_unfold t st ev st' :
  step t st = Some (ev, st') ->
  exists w w' s',
    workers st !! t = Some w /\
    step_worker t w (st_store st) = Some (ev, w', s') /\
    st' = State s' (<[t:=w']> (workers st)).
Proof.
  unfold step. intros Hstep.
  destruct (workers st !! t) as [w|]; [|done].
  destruct (step_worker t w (st_store st)) as [[[ev' w'] s']|] eqn:Hw; [|done].
  injection Hstep as <- <-. by exists w, w', s'.
Qed.

Lemma step_worker_effect t w s ev w' s' :
  worker_ok s t w ->
  step_worker t w s = Some (ev, w', s') ->
  entries s' = match ev with
               | EvIndex k => match entries s !! k with
                              | Some _ => entries s
                              | None => <[k := V0]> (entries s)
                              end
               | EvMerge k v => merge_into (entries s) k v
               | _ => entries s
               end.
Proof.
  intros [Hrange Hsize Hrec Hlock Hentry Hold Hret Hcrash] Hstep.
  step_cases w Hstep; try done.
  unfold merge_into. by rewrite (Hold r old eq_refl).
Qed.

Lemma step_worker_discipline t w s ev w' s' :
  worker_ok s t w ->
  (forall k, locks s !! k = Some t -> holds w = Some k) ->
  step_worker t w s = Some (ev, w', s') ->
  match ev with
  | EvLock k =>
      (forall k', locks s !! k' <> Some t) /\ locks s !! k = None /\
      locks s' = <[k := t]> (locks s)
  | EvIndex k | EvLoad k | EvMerge k _ =>
      locks s !! k = Some t /\ locks s' = locks s
  | EvUnlock k =>
      locks s !! k = Some t /\ locks s' = delete k (locks s) /\
      (forall k', locks s' !! k' <> Some t)
  | _ => locks s' = locks s
  end.
Proof.
  intros [Hrange Hsize Hrec Hlock Hentry Hold Hret Hcrash] Hown Hstep.
  step_cases w Hstep; try done; try (split; [by apply Hlock|done]).
  - (* lock *)
    split_and!; try done. intros k' Hk'. by apply Hown in Hk'.
  - (* unlock *)
    split_and!; try done; [by apply Hlock|]. intros k' Hk'.
    destruct (decide (k' = key r)) as [->|Hne].
    + by rewrite lookup_delete_eq in Hk'.
    + rewrite lookup_delete_ne in Hk' by done. apply Hown in Hk'.
      unfold holds in Hk'. simpl in Hk'. congruence.
Qed.

(** *** Runs over an empty dataset *)

Lemma sched_step_lookup_is_Some t0 c t :
  is_Some (workers (sched_step t0 c).2 !! t) <-> is_Some (workers c.2 !! t).
Proof.
  rewrite <- !(fmap_is_Some w_task), <- !list_lookup_fmap.
  by rewrite sched_step_tasks.
Qed.

Lemma run_returned sched c t w :
  workers c.2 !! t = Some w -> w_pc w = Returned ->
  workers (run sched c).2 !! t = Some w.
Proof.
  revert c. induction sched as [|t0 sched IH]; intros c Hwt Hpc; [done|].
  simpl. apply IH; [|done]. by apply sched_step_returned.
Qed.

Lemma empty_worker (s0 : gmap K V) c t w :
  dataset = [] -> inv s0 c -> workers c.2 !! t = Some w ->
  w_i w = _end (w_task w) /\ (w_pc w = AtTest \/ w_pc w = Returned).
Proof.
  intros Hd [Hw _ _ _ _] Hwt.
  destruct (Hw t w Hwt) as [Hrange Hsize Hrec Hlock Hentry Hold Hret Hcrash].
  rewrite Hd in Hsize, Hrec. simpl in Hsize. split; [lia|].
  destruct w as [tk i p]; simpl in *.
  destruct p; auto; try done; by destruct (Hrec _ eq_refl) as [? _].
Qed.

Lemma empty_step_returns (s0 : gmap K V) c t w :
  dataset = [] -> inv s0 c -> workers c.2 !! t = Some w ->
  exists w', workers (sched_step t c).2 !! t = Some w' /\ w_pc w' = Returned.
Proof.
  intros Hd Hc Hwt.
  destruct (empty_worker s0 c t w Hd Hc Hwt) as [Hi [Hpc|Hpc]].
  - destruct c as [tr [s ws]]. unfold sched_step, step. simpl in *.
    rewrite Hwt. unfold step_worker. rewrite Hpc.
    destruct (decide (w_i w = _end (w_task w))); [|done]. simpl.
    eexists. rewrite list_lookup_insert_eq by (by eapply lookup_lt_Some). done.
  - exists w. split; [|done]. by apply sched_step_returned.
Qed.

Lemma empty_fair_returns (s0 : gmap K V) sched c t :
  dataset = [] -> inv s0 c -> is_Some (workers c.2 !! t) -> t ∈ sched ->
  exists w, workers (run sched c).2 !! t = Some w /\ w_pc w = Returned.
Proof.
  intros Hd. revert c.
  induction sched as [|t0 sched IH]; intros c Hc Hsome Hin;
    [by apply elem_of_nil in Hin|].
  simpl. destruct (decide (t = t0)) as [<-|Hne].
  - destruct Hsome as [w Hwt].
    destruct (empty_step_returns s0 c t w Hd Hc Hwt) as (w' & Hw' & Hpc).
    exists w'. split; [|done]. by apply run_returned.
  - apply elem_of_cons in Hin as [?|Hin]; [done|].
    apply IH; [by apply sched_step_inv| |done].
    by apply sched_step_lookup_is_Some.
Qed.


(** *** The claims about [exec] and [task::run] *)

(** C2. With [ntask = 1] the single worker's range is the whole dataset,
    its loop goes through the records in dataset order, every run can be
    completed, and once [exec] has returned the output store is the one
    a sequential fold of Mapper then Combiner over the dataset leaves,
    for any combiner. *)
Theorem exec_single_worker_sequential (s0 : gmap K V) :
  dataset_size <= SIZE_MAX ->
  exec_tasks dataset_size 1 = inr [Task 0 (length dataset)] /\
  (forall sched, exists sched' c,
     job_exec 1 s0 (sched ++ sched') = inr c /\ finished c.2 = true) /\
  (forall sched c,
     job_exec 1 s0 sched = inr c -> finished c.2 = true ->
     c.1.*2 = run_events (Task 0 (length dataset)) /\
     entries (st_store c.2) = sequential_fold s0 dataset).
Proof.
  intros Hs.
  assert (1 <= 1 <= INT_MAX) as Hn by (unfold INT_MAX; lia).
  assert (work_range dataset_size 1 0 = Task 0 (length dataset)) as Hwr.
  { unfold work_range. simpl. f_equal; unfold dataset_size; lia. }
  assert (work_range dataset_size 1 <$> seqZ 0 1
          = [Task 0 (length dataset)]) as Hranges.
  { change (seqZ 0 1) with [0]. by rewrite fmap_cons, Hwr. }
  split_and!.
  - rewrite <- Hranges. apply exec_tasks_ranges; [done|].
    by apply dataset_size_nonneg.
  - intros sched. by apply job_exec_completes.
  - intros sched c Hc Hfin.
    destruct (job_exec_finished 1 Hn Hs s0 sched c Hc Hfin)
      as (Hent & _ & Hone).
    split.
    + pose proof (job_exec_inv 1 Hn Hs _ _ _ Hc) as [Hw Hev _ _ _].
      assert (length (workers c.2) = 1%nat) as Hlen.
      { rewrite job_exec_run in Hc by done. injection Hc as <-.
        rewrite <- (length_fmap w_task), run_tasks.
        change (length (w_task <$> workers (init_state s0
                  (work_range dataset_size 1 <$> seqZ 0 1))) = 1%nat).
        by rewrite init_tasks, Hranges. }
      destruct (workers c.2) as [|w [|? ?]] eqn:Hws; try done.
      rewrite trace_single_thread.
      * assert (workers c.2 !! 0%nat = Some w) as Hw0 by (by rewrite Hws).
        destruct (job_exec_worker 1 Hn Hs s0 sched c 0%nat w Hc Hw0)
          as (Htk & _ & _ & Hret).
        rewrite finished_spec in Hfin. rewrite Hret by eauto.
        rewrite Htk. f_equal. exact Hwr.
      * intros t Ht. rewrite Hev, ?Hws. by destruct t.
    + rewrite Hent, Hone by done. apply fold_merges_key_value.
Qed.

(** C4. If the combiner is commutative and associative, then whatever
    the worker counts and the interleavings of two completed runs of
    [exec] on the same dataset and the same initial output store, the
    entry of every key is the same in both output stores (it is the one
    of the sequential fold); and for every worker count every run can be
    completed. *)
Theorem exec_result_independent_of_worker_count (s0 : gmap K V)
    n1 n2 sched1 sched2 c1 c2 :
  (forall x y, combine x y = combine y x) ->
  (forall x y z, combine (combine x y) z = combine x (combine y z)) ->
  dataset_size <= SIZE_MAX ->
  1 <= n1 <= INT_MAX -> 1 <= n2 <= INT_MAX ->
  job_exec n1 s0 sched1 = inr c1 -> finished c1.2 = true ->
  job_exec n2 s0 sched2 = inr c2 -> finished c2.2 = true ->
  (forall k, entries (st_store c1.2) !! k = entries (st_store c2.2) !! k) /\
  entries (st_store c1.2) = sequential_fold s0 dataset /\
  (forall n sched, 1 <= n <= INT_MAX -> exists sched' c,
     job_exec n s0 (sched ++ sched') = inr c /\ finished c.2 = true).
Proof.
  intros Hcomm Hassoc Hs Hn1 Hn2 Hc1 Hf1 Hc2 Hf2.
  rewrite (job_exec_finished_comm n1 Hn1 Hs s0 sched1 c1) by done.
  rewrite (job_exec_finished_comm n2 Hn2 Hs s0 sched2 c2) by done.
  split_and!; try done.
  intros n sched Hn. by apply job_exec_completes.
Qed.


(** C6. On an empty dataset, for every worker count [ntask >= 1] and
    every schedule, [exec] builds its workers without fault, no worker
    ever locks, indexes or merges anything (the only event is the return
    of a worker), no lock is held, the output store is left as it was,
    and as soon as every worker has had a turn all of them have
    returned. *)
Theorem exec_empty_dataset (s0 : gmap K V) ntask sched :
  1 <= ntask <= INT_MAX ->
  dataset = [] ->
  exists c,
    job_exec ntask s0 sched = inr c /\
    length (workers c.2) = Z.to_nat ntask /\
    (forall t ev, (t, ev) ∈ c.1 -> ev = EvReturn) /\
    entries (st_store c.2) = s0 /\
    locks (st_store c.2) = ∅ /\
    (forall w, w ∈ workers c.2 -> w_pc w = AtTest \/ w_pc w = Returned) /\
    ((forall t, (t < Z.to_nat ntask)%nat -> t ∈ sched) ->
     finished c.2 = true).
Proof.
  intros Hn Hd.
  assert (dataset_size <= SIZE_MAX) as Hs
    by (unfold dataset_size, SIZE_MAX; rewrite Hd; simpl; lia).
  set (ranges := work_range dataset_size ntask <$> seqZ 0 ntask).
  set (c := run sched ([], init_state s0 ranges)).
  assert (job_exec ntask s0 sched = inr c) as Hc by (by apply job_exec_run).
  pose proof (job_exec_inv ntask Hn Hs _ _ _ Hc) as Hinv.
  assert (length (workers c.2) = Z.to_nat ntask) as Hlen.
  { rewrite <- (length_fmap w_task). unfold c. rewrite run_tasks.
    change (length (w_task <$> workers (init_state s0 ranges))
            = Z.to_nat ntask).
    rewrite init_tasks. unfold ranges. by rewrite length_fmap, length_seqZ. }
  assert (Hevs : forall t ev, (t, ev) ∈ c.1 -> ev = EvReturn).
  { intros t ev Hin.
    assert (ev ∈ thread_events t c.1) as Hev.
    { unfold thread_events. apply list_elem_of_fmap. exists (t, ev).
      split; [done|]. by apply list_elem_of_filter. }
    destruct Hinv as [_ Hte _ _ _]. rewrite Hte in Hev.
    destruct (workers c.2 !! t) as [w|] eqn:Hwt; simpl in Hev;
      [|by apply elem_of_nil in Hev].
    destruct (empty_worker s0 c t w Hd
                (job_exec_inv ntask Hn Hs _ _ _ Hc) Hwt) as [_ Hpc].
    unfold worker_events, slice in Hev.
    rewrite Hd, drop_nil, take_nil in Hev. simpl in Hev.
    destruct Hpc as [Hpc|Hpc]; rewrite Hpc in Hev; simpl in Hev.
    - by apply elem_of_nil in Hev.
    - by apply list_elem_of_singleton in Hev. }
  assert (merges c.1 = []) as Hmerges.
  { unfold merges. clear -Hevs. induction c.1 as [|[t ev] tr IH]; [done|].
    rewrite fmap_cons. simpl.
    rewrite (Hevs t ev) by left. simpl. apply IH.
    intros t' ev' Hin. apply (Hevs t'). by right. }
  assert (Hpcs : forall w, w ∈ workers c.2 ->
                   w_pc w = AtTest \/ w_pc w = Returned).
  { intros w [t Hwt]%list_elem_of_lookup.
    by destruct (empty_worker s0 c t w Hd Hinv Hwt). }
  exists c. split_and!; try done.
  - destruct Hinv as [_ _ _ Hm Hf]. rewrite Hmerges in Hm, Hf. simpl in *.
    apply map_eq. intros k.
    destruct (s0 !! k) as [v|] eqn:Hk; [by apply Hm|].
    destruct (Hf k Hk) as [?|(_ & t & w & Hwt & Hp)]; [done|].
    apply list_elem_of_lookup_2, Hpcs in Hwt.
    unfold pending in Hp. by destruct Hwt as [Hpc|Hpc]; rewrite Hpc in Hp.
  - destruct Hinv as [_ _ Hl _ _].
    apply map_eq. intros k. rewrite lookup_empty.
    destruct (locks (st_store c.2) !! k) as [t|] eqn:Hk; [|done].
    destruct (Hl k t Hk) as (w & Hwt & Hh).
    apply list_elem_of_lookup_2, Hpcs in Hwt.
    unfold holds in Hh. by destruct Hwt as [Hpc|Hpc]; rewrite Hpc in Hh.
  - intros Hfair. apply finished_spec. intros t w Hwt.
    assert (t < Z.to_nat ntask)%nat as Ht.
    { rewrite <- Hlen. by eapply lookup_lt_Some. }
    destruct (empty_fair_returns s0 sched ([], init_state s0 ranges) t Hd)
      as (w' & Hw' & Hpc).
    + by apply init_inv, ranges_ok.
    + simpl. rewrite list_lookup_fmap. apply fmap_is_Some.
      apply lookup_lt_is_Some. unfold ranges.
      by rewrite length_fmap, length_seqZ.
    + by apply Hfair.
    + fold c in Hw'. by simplify_eq.
Qed.

(** *** Further properties of the runs *)

Lemma elem_of_thread_events t ev tr :
  (t, ev) ∈ tr -> ev ∈ thread_events t tr.
Proof.
  intros Hin. unfold thread_events. apply list_elem_of_fmap. exists (t, ev).
  split; [done|]. by apply list_elem_of_filter.
Qed.

Lemma elem_of_slice r b e : r ∈ slice b e -> r ∈ dataset.
Proof.
  unfold slice. intros Hin.
  by apply subseteq_take, subseteq_drop in Hin.
Qed.

(** An event of a whole run over a range is the return, or one of the six
    events of the body on a record of the range. *)
Lemma elem_of_run_events ev tk :
  ev ∈ run_events tk ->
  ev = EvReturn \/ exists r, r ∈ dataset /\ ev ∈ body_events r.
Proof.
  unfold run_events. intros [Hin|Hin]%elem_of_app.
  - right. apply list_elem_of_In, in_flat_map in Hin as (r & Hr & Hev).
    exists r. split; [|by apply list_elem_of_In].
    apply list_elem_of_In in Hr. by eapply elem_of_slice.
  - left. by apply list_elem_of_singleton in Hin.
Qed.

(** Every event of a reachable trace is an event of the whole run of the
    worker that produced it. *)
Lemma trace_event_in_run (s0 : gmap K V) c t ev :
  inv s0 c -> (t, ev) ∈ c.1 ->
  exists w, workers c.2 !! t = Some w /\ ev ∈ run_events (w_task w).
Proof.
  intros [Hw Hev _ _ _] Hin%elem_of_thread_events.
  rewrite Hev in Hin.
  destruct (workers c.2 !! t) as [w|] eqn:Hwt; simpl in Hin;
    [|by apply elem_of_nil in Hin].
  exists w. split; [done|].
  destruct (worker_events_prefix _ _ _ (Hw t w Hwt)) as [l ->].
  apply elem_of_app. by left.
Qed.

(** X4. Memory safety of [task::run] under [exec]: in every run, whatever
    the interleaving, the iterator of a worker stays inside its range, a
    worker that is inside the loop body is at a record of the dataset, and
    no invalid iterator or reference is ever used. *)
Theorem run_stays_in_range (s0 : gmap K V) ntask sched c :
  1 <= ntask <= INT_MAX ->
  dataset_size <= SIZE_MAX ->
  job_exec ntask s0 sched = inr c ->
  (forall t w, workers c.2 !! t = Some w ->
     w_pc w <> Crashed /\
     (_begin (w_task w) <= w_i w <= _end (w_task w))%nat /\
     (_end (w_task w) <= length dataset)%nat /\
     (forall r, at_record w = Some r ->
        dataset !! w_i w = Some r /\ (w_i w < _end (w_task w))%nat)) /\
  (forall t ev, (t, ev) ∈ c.1 -> ev <> EvCrash).
Proof.
  intros Hn Hs Hc. pose proof (job_exec_inv ntask Hn Hs _ _ _ Hc) as Hinv.
  split.
  - intros t w Hwt. destruct Hinv as [Hw _ _ _ _].
    destruct (Hw t w Hwt) as [Hrange Hsize Hrec _ _ _ _ Hcrash]. done.
  - intros t ev Hin ->.
    destruct (trace_event_in_run s0 c t _ Hinv Hin) as (w & _ & Hev).
    apply elem_of_run_events in Hev as [?|(r & _ & Hev)]; [done|].
    unfold body_events in Hev.
    repeat (apply elem_of_cons in Hev as [Hev|Hev]; [done|]).
    by apply elem_of_nil in Hev.
Qed.

(** X5. When [exec] returns, for any worker count and interleaving, every
    lock taken on the store has been released, and every worker has
    stopped exactly at the end of its own range. *)
Theorem exec_returns_unlocked (s0 : gmap K V) ntask sched c :
  1 <= ntask <= INT_MAX ->
  dataset_size <= SIZE_MAX ->
  job_exec ntask s0 sched = inr c ->
  finished c.2 = true ->
  locks (st_store c.2) = ∅ /\
  length (workers c.2) = Z.to_nat ntask /\
  (forall t w, workers c.2 !! t = Some w ->
     w_task w = work_range dataset_size ntask (Z.of_nat t) /\
     w_i w = _end (w_task w)).
Proof.
  intros Hn Hs Hc Hfin. pose proof (job_exec_inv ntask Hn Hs _ _ _ Hc) as Hinv.
  split_and!.
  - by eapply finished_locks.
  - rewrite job_exec_run in Hc by done. injection Hc as <-.
    rewrite <- (length_fmap w_task), run_tasks.
    change (length (w_task <$> workers (init_state s0
              (work_range dataset_size ntask <$> seqZ 0 ntask)))
            = Z.to_nat ntask).
    by rewrite init_tasks, length_fmap, length_seqZ.
  - intros t w Hwt.
    destruct (job_exec_worker ntask Hn Hs s0 sched c t w Hc Hwt) as (Htk & _).
    split; [done|]. destruct Hinv as [Hw _ _ _ _].
    rewrite finished_spec in Hfin.
    apply (wk_ret _ _ _ _ _ (Hw t w Hwt)). by eapply Hfin.
Qed.


(** What one lookup-or-create followed by a merge makes of the entry of a
    key: [o] is the entry before ([None] when the key has no entry). *)
Definition merge_entry (o : option V) (v : V) : option V :=
  Some (combine (default V0 o) v).

Lemma Permutation_fmap_inv {A B} (f : A -> B) (l1 : list B) (l2 : list A) :
  l1 ≡ₚ f <$> l2 -> exists l3, l1 = f <$> l3 /\ l3 ≡ₚ l2.
Proof.
  revert l1. induction l2 as [|x l2 IH]; intros l1 Hp.
  - apply Permutation_nil_r in Hp as ->. by exists [].
  - rewrite fmap_cons in Hp.
    assert (f x ∈ l1) as [k1 [k2 ->]]%list_elem_of_split.
    { rewrite Hp. left. }
    rewrite <- Permutation_middle in Hp. apply Permutation_cons_inv in Hp.
    destruct (IH _ Hp) as (l3 & Heq & Hp3).
    symmetry in Heq. apply fmap_app_inv in Heq as (m1 & m2 & -> & -> & ->).
    exists (m1 ++ x :: m2). split.
    + by rewrite fmap_app, fmap_cons.
    + by rewrite <- Permutation_middle, Hp3.
Qed.

Lemma sequential_fold_lookup (s0 : gmap K V) recs k :
  sequential_fold s0 recs !! k
  = foldl merge_entry (s0 !! k) (value <$> filter (fun r => key r = k) recs).
Proof.
  revert s0. induction recs as [|r recs IH]; intros s0; [done|].
  change (sequential_fold s0 (r :: recs))
    with (sequential_fold (merge_into s0 (key r) (value r)) recs).
  rewrite IH, filter_cons. unfold merge_into.
  destruct (decide (key r = k)) as [->|Hne].
  - by rewrite lookup_insert_eq, fmap_cons.
  - by rewrite lookup_insert_ne.
Qed.

Lemma dom_fold_merges (s0 : gmap K V) kvs :
  dom (fold_merges s0 kvs) = dom s0 ∪ list_to_set kvs.*1.
Proof.
  revert s0. induction kvs as [|[k v] kvs IH]; intros s0.
  - simpl. set_solver.
  - change (fold_merges s0 ((k, v) :: kvs))
      with (fold_merges (merge_into s0 k v) kvs).
    rewrite IH. unfold merge_into. rewrite dom_insert_L, fmap_cons. simpl.
    set_solver.
Qed.

(** X6. For any combiner, commutative or not: when [exec] returns, every
    record of the dataset has been merged exactly once, and the output
    store is what the sequential fold leaves on some reordering of the
    dataset (the order in which the merges were applied). *)
Theorem exec_store_is_fold_of_reordering (s0 : gmap K V) ntask sched c :
  1 <= ntask <= INT_MAX ->
  dataset_size <= SIZE_MAX ->
  job_exec ntask s0 sched = inr c ->
  finished c.2 = true ->
  exists recs,
    recs ≡ₚ dataset /\
    merges c.1 = key_value <$> recs /\
    entries (st_store c.2) = sequential_fold s0 recs.
Proof.
  intros Hn Hs Hc Hfin.
  destruct (job_exec_finished ntask Hn Hs s0 sched c Hc Hfin)
    as (Hent & Hperm & _).
  apply Permutation_fmap_inv in Hperm as (recs & Hm & Hp).
  exists recs. split_and!; try done.
  by rewrite Hent, Hm, fold_merges_key_value.
Qed.

(** X12. For any combiner: when [exec] returns, the entry of a
    key is obtained from the entry the store held before by merging in the
    values of the records of that key, each once, in some order.  So the
    entry of a key no record maps to is left as it was (absent if it was
    absent), and a key with a single record holds the combination of the
    previous (or default-constructed) value with the value of that
    record. *)
Theorem exec_entry_of_key (s0 : gmap K V) ntask sched c k :
  1 <= ntask <= INT_MAX ->
  dataset_size <= SIZE_MAX ->
  job_exec ntask s0 sched = inr c ->
  finished c.2 = true ->
  (exists vs,
     vs ≡ₚ value <$> filter (fun r => key r = k) dataset /\
     entries (st_store c.2) !! k = foldl merge_entry (s0 !! k) vs) /\
  (filter (fun r => key r = k) dataset = [] ->
   entries (st_store c.2) !! k = s0 !! k) /\
  (forall r, filter (fun r => key r = k) dataset = [r] ->
   entries (st_store c.2) !! k
   = Some (combine (default V0 (s0 !! k)) (value r))).
Proof.
  intros Hn Hs Hc Hfin.
  destruct (job_exec_finished ntask Hn Hs s0 sched c Hc Hfin)
    as (Hent & Hperm & _).
  apply Permutation_fmap_inv in Hperm as (recs & Hm & Hp).
  assert (entries (st_store c.2) !! k
          = foldl merge_entry (s0 !! k)
              (value <$> filter (fun r => key r = k) recs)) as Hk.
  { by rewrite Hent, Hm, fold_merges_key_value, sequential_fold_lookup. }
  assert (value <$> filter (fun r => key r = k) recs
          ≡ₚ value <$> filter (fun r => key r = k) dataset) as Hvs
    by (by rewrite Hp).
  split_and!.
  - by eexists.
  - intros Hnone. rewrite Hnone in Hvs. apply Permutation_nil_r in Hvs.
    by rewrite Hk, Hvs.
  - intros r Hone. rewrite Hone in Hvs. simpl in Hvs.
    apply Permutation_singleton_r in Hvs. by rewrite Hk, Hvs.
Qed.

(** X7. [exec] never removes an entry and never creates one for a key no
    record maps to: in every run the keys of the store are the keys it had
    before, together with keys of records of the dataset; when [exec]
    returns they are exactly the keys it had before and the keys of all
    the records. *)
Theorem exec_store_keys (s0 : gmap K V) ntask sched c :
  1 <= ntask <= INT_MAX ->
  dataset_size <= SIZE_MAX ->
  job_exec ntask s0 sched = inr c ->
  dom s0 ⊆ dom (entries (st_store c.2)) /\
  dom (entries (st_store c.2)) ⊆ dom s0 ∪ list_to_set (key <$> dataset) /\
  (finished c.2 = true ->
   dom (entries (st_store c.2)) = dom s0 ∪ list_to_set (key <$> dataset)).
Proof.
  intros Hn Hs Hc. pose proof (job_exec_inv ntask Hn Hs _ _ _ Hc) as Hinv.
  assert (Hmk : forall k, k ∈ (merges c.1).*1 -> k ∈ key <$> dataset).
  { intros k ([k' v] & -> & Hin)%list_elem_of_fmap. simpl.
    unfold merges in Hin. apply list_elem_of_omap in Hin as (ev & Hev & Hmo).
    apply merge_of_Some in Hmo. subst ev.
    apply list_elem_of_fmap in Hev as ([t ev] & Heq & Hin). simpl in Heq.
    subst ev.
    destruct (trace_event_in_run s0 c t _ Hinv Hin) as (w & _ & Hev).
    apply elem_of_run_events in Hev as [?|(r & Hr & Hev)]; [done|].
    unfold body_events in Hev.
    repeat (apply elem_of_cons in Hev as [Hev|Hev]; [by simplify_eq|]).
    apply elem_of_cons in Hev as [Hev|Hev].
    - simplify_eq. apply list_elem_of_fmap. eauto.
    - repeat (apply elem_of_cons in Hev as [Hev|Hev]; [by simplify_eq|]).
      by apply elem_of_nil in Hev. }
  destruct Hinv as [Hw _ _ Hm Hf].
  split_and!.
  - intros k Hk.
    assert (k ∈ dom (fold_merges s0 (merges c.1))) as Hd
      by (rewrite dom_fold_merges; set_solver).
    apply elem_of_dom in Hd as [v Hv]. apply elem_of_dom. eauto.
  - intros k [v Hk]%elem_of_dom.
    destruct (fold_merges s0 (merges c.1) !! k) as [v'|] eqn:Hfm.
    + assert (k ∈ dom (fold_merges s0 (merges c.1))) as Hd
        by (apply elem_of_dom; eauto).
      rewrite dom_fold_merges in Hd.
      apply elem_of_union in Hd as [?|Hd%elem_of_list_to_set];
        [set_solver|].
      apply elem_of_union_r, elem_of_list_to_set. by apply Hmk.
    + destruct (Hf k Hfm) as [?|(_ & t & w & Hwt & Hp)]; [congruence|].
      apply elem_of_union_r, elem_of_list_to_set, list_elem_of_fmap.
      destruct (Hw t w Hwt) as [_ _ Hrec _ _ _ _ _].
      unfold pending in Hp. unfold at_record in Hrec.
      destruct (w_pc w); try done; exists r;
        (split; [done|];
         apply (list_elem_of_lookup_2 _ (w_i w)), (Hrec r eq_refl)).
  - intros Hfin.
    destruct (job_exec_finished ntask Hn Hs s0 sched c Hc Hfin)
      as (Hent & Hperm & _).
    rewrite Hent, dom_fold_merges. f_equal.
    apply set_eq. intros k. rewrite !elem_of_list_to_set.
    rewrite Hperm. by rewrite <- list_fmap_compose.
Qed.


(** *** The number of steps of a run *)

Lemma step_worker_fuel_exact t w s ev w' s' :
  worker_ok s t w ->
  step_worker t w s = Some (ev, w', s') ->
  worker_fuel w = S (worker_fuel w').
Proof.
  intros [Hrange Hsize Hrec Hlock Hentry Hold Hret Hcrash] Hstep.
  unfold worker_fuel.
  step_cases w Hstep;
    try (destruct (Hrec _ eq_refl) as [_ Hlt]); try lia.
  - match goal with Hn : dataset !! _ = None |- _ =>
      apply lookup_ge_None in Hn end. lia.
  - destruct (Hentry r eq_refl) as [? ?]. congruence.
Qed.

Lemma sched_step_steps (s0 : gmap K V) t c :
  inv s0 c ->
  (length (sched_step t c).1 + fuel (sched_step t c).2
   = length c.1 + fuel c.2)%nat.
Proof.
  destruct c as [tr [s ws]]. intros [Hw _ _ _ _].
  unfold sched_step, step, fuel. simpl in *.
  destruct (ws !! t) as [w|] eqn:Hwt; [|done].
  destruct (step_worker t w s) as [[[ev w'] s']|] eqn:Hstep; [|done].
  simpl. rewrite length_app. simpl.
  pose proof (step_worker_fuel_exact _ _ _ _ _ _ (Hw t w Hwt) Hstep).
  pose proof (sum_list_with_insert worker_fuel ws t w w' Hwt). lia.
Qed.

Lemma run_steps (s0 : gmap K V) sched c :
  inv s0 c ->
  (length (run sched c).1 + fuel (run sched c).2 = length c.1 + fuel c.2)%nat.
Proof.
  revert c. induction sched as [|t sched IH]; intros c Hc; simpl; [done|].
  rewrite IH by (by apply sched_step_inv). by eapply sched_step_steps.
Qed.

Lemma length_task_records tk :
  range_ok tk -> length (task_records tk) = (_end tk - _begin tk)%nat.
Proof.
  unfold range_ok, task_records, slice. intros Hr.
  rewrite length_take_le; [done|]. rewrite length_drop. lia.
Qed.

Lemma init_fuel (s0 : gmap K V) ts :
  Forall range_ok ts ->
  fuel (init_state s0 ts)
  = (6 * length (concat (task_records <$> ts)) + length ts)%nat.
Proof.
  unfold fuel. simpl. induction 1 as [|tk ts Htk _ IH]; [done|].
  rewrite !fmap_cons. simpl. rewrite length_app, IH.
  rewrite (length_task_records tk Htk). unfold worker_fuel. simpl. lia.
Qed.

Lemma fuel_zero_finished (s0 : gmap K V) c :
  inv s0 c -> fuel c.2 = 0%nat <-> finished c.2 = true.
Proof.
  intros [Hw _ _ _ _]. rewrite finished_spec. unfold fuel. split.
  - intros Hz t w Hwt.
    assert (worker_fuel w = 0)%nat as Hwz.
    { pose proof (sum_list_with_in w worker_fuel (workers c.2)
                    (list_elem_of_lookup_2 _ _ _ Hwt)). lia. }
    destruct (Hw t w Hwt) as [Hrange Hsize Hrec _ _ _ _ Hcrash].
    unfold worker_fuel in Hwz. unfold at_record in Hrec.
    destruct (w_pc w); try done;
      try (destruct (Hrec _ eq_refl) as [_ Hlt]); lia.
  - intros Hall.
    assert (forall w, w ∈ workers c.2 -> worker_fuel w = 0%nat) as Hz.
    { intros w [t Hwt]%list_elem_of_lookup. unfold worker_fuel.
      by rewrite (Hall t w Hwt). }
    clear Hw Hall.
    induction (workers c.2) as [|w ws IH]; [done|]. simpl.
    rewrite (Hz w) by left. apply IH. intros w' Hin. apply Hz. by right.
Qed.

(** X8. Termination of [exec]: a run takes exactly six steps per record
    plus one per worker.  In every run the number of steps taken so far is
    at most [6 * size + ntask]; [exec] has returned exactly when that
    number is reached; and until then some worker is able to take a step
    (the workers never deadlock on the locks). *)
Theorem exec_step_count (s0 : gmap K V) ntask sched c :
  1 <= ntask <= INT_MAX ->
  dataset_size <= SIZE_MAX ->
  job_exec ntask s0 sched = inr c ->
  (length c.1 <= 6 * length dataset + Z.to_nat ntask)%nat /\
  (finished c.2 = true <->
   length c.1 = (6 * length dataset + Z.to_nat ntask)%nat) /\
  (finished c.2 = false -> exists t ev st', step t c.2 = Some (ev, st')).
Proof.
  intros Hn Hs Hc. pose proof (job_exec_inv ntask Hn Hs _ _ _ Hc) as Hinv.
  rewrite job_exec_run in Hc by done. injection Hc as Hc.
  pose proof (run_steps s0 sched
                ([], init_state s0 (work_range dataset_size ntask <$> seqZ 0 ntask))
                (init_inv s0 _ (ranges_ok ntask Hn Hs))) as Hsteps.
  rewrite Hc in Hsteps. simpl in Hsteps.
  change (fuel {| st_store := {| entries := s0; locks := ∅ |};
                  workers := spawn <$> (work_range dataset_size ntask
                                          <$> seqZ 0 ntask) |})
    with (fuel (init_state s0 (work_range dataset_size ntask <$> seqZ 0 ntask)))
    in Hsteps.
  rewrite init_fuel in Hsteps by (by apply ranges_ok).
  rewrite ranges_concat, length_fmap, length_seqZ in Hsteps by done.
  split_and!.
  - lia.
  - rewrite <- (fuel_zero_finished s0 c Hinv). lia.
  - intros Hfin. by eapply progress.
Qed.

(** *** A task whose range is the wrong way round *)

(** X9. [task::run] tests [i != _end]: a task constructed with [_begin]
    past [_end] never leaves its loop through the test.  Whatever the
    other workers do, it never returns (its iterator stays past [_end]
    and runs off the dataset), so the pool never finishes. *)
Theorem run_reversed_range_never_returns (s0 : gmap K V) ts sched t tk :
  ts !! t = Some tk ->
  (_end tk < _begin tk)%nat ->
  (exists w,
     workers (run sched ([], init_state s0 ts)).2 !! t = Some w /\
     w_task w = tk /\ (_end tk < w_i w)%nat /\ w_pc w <> Returned) /\
  finished (run sched ([], init_state s0 ts)).2 = false.
Proof.
  intros Htk Hlt.
  assert (forall c,
    (exists w, workers c.2 !! t = Some w /\ w_task w = tk /\
               (_end tk < w_i w)%nat /\ w_pc w <> Returned) ->
    exists w, workers (run sched c).2 !! t = Some w /\ w_task w = tk /\
              (_end tk < w_i w)%nat /\ w_pc w <> Returned) as Hrun.
  { induction sched as [|t0 sched IH]; intros c Hc; [done|].
    simpl. apply IH. destruct Hc as (w & Hwt & Hw & Hi & Hpc).
    destruct c as [tr [s ws]]. unfold sched_step, step. simpl in *.
    destruct (ws !! t0) as [w0|] eqn:Hw0; [|eauto].
    destruct (step_worker t0 w0 s) as [[[ev w'] s']|] eqn:Hstep; [|eauto].
    simpl. destruct (decide (t0 = t)) as [->|Hne].
    - simplify_eq. exists w'.
      rewrite list_lookup_insert_eq by (by eapply lookup_lt_Some).
      split; [done|]. clear -Hstep Hi Hpc.
      step_cases w Hstep; split_and!; try done; lia.
    - exists w. by rewrite list_lookup_insert_ne. }
  destruct (Hrun ([], init_state s0 ts)) as (w & Hwt & Hw & Hi & Hpc).
  { exists (spawn tk). simpl. rewrite list_lookup_fmap, Htk. done. }
  split; [eauto|].
  apply not_true_is_false. rewrite finished_spec. intros Hall.
  by apply Hpc, (Hall t w).
Qed.


(** *** Round-robin scheduling *)

Lemma run_app l1 l2 c : run (l1 ++ l2) c = run l2 (run l1 c).
Proof. revert c. induction l1 as [|t l1 IH]; intros c; simpl; [done|apply IH]. Qed.

(** A turn either changes nothing or uses up one step. *)
Lemma sched_step_same_or_less (s0 : gmap K V) t c :
  inv s0 c -> sched_step t c = c \/ (fuel (sched_step t c).2 < fuel c.2)%nat.
Proof.
  intros Hc. unfold sched_step.
  destruct (step t c.2) as [[ev st']|] eqn:Hstep; [|by left].
  right. simpl. by eapply step_fuel.
Qed.

Lemma run_same_or_less (s0 : gmap K V) l c :
  inv s0 c -> run l c = c \/ (fuel (run l c).2 < fuel c.2)%nat.
Proof.
  revert c. induction l as [|t l IH]; intros c Hc; simpl; [by left|].
  destruct (sched_step_same_or_less s0 t c Hc) as [Heq|Hlt].
  - rewrite Heq. by apply IH.
  - right. destruct (IH (sched_step t c)) as [Heq|Hlt'];
      [by apply sched_step_inv|by rewrite Heq|lia].
Qed.

(** In a round in which every worker is given a turn, some worker takes a
    step, unless all have returned. *)
Lemma round_uses_fuel (s0 : gmap K V) c :
  inv s0 c -> finished c.2 = false ->
  (fuel (run (seq 0 (length (workers c.2))) c).2 < fuel c.2)%nat.
Proof.
  intros Hc Hfin. destruct (progress s0 c Hc Hfin) as (t & ev & st' & Hstep).
  assert (t < length (workers c.2))%nat as Ht.
  { apply step_unfold in Hstep as (w & _ & _ & Hwt & _).
    by eapply lookup_lt_Some. }
  replace (length (workers c.2)) with (t + S (length (workers c.2) - S t))%nat
    by lia.
  rewrite seq_app, run_app. simpl.
  set (c1 := run (seq 0 t) c).
  assert (inv s0 c1) as Hc1 by (by apply run_inv).
  assert (fuel (sched_step t c1).2 < fuel c.2)%nat as Hlt.
  { destruct (run_same_or_less s0 (seq 0 t) c Hc) as [Heq|Hlt].
    - fold c1 in Heq. rewrite Heq. unfold sched_step. rewrite Hstep. simpl.
      by eapply step_fuel.
    - fold c1 in Hlt.
      destruct (sched_step_same_or_less s0 t c1 Hc1) as [Heq|Hlt'];
        [by rewrite Heq|lia]. }
  destruct (run_same_or_less s0 (seq (S t) (length (workers c.2) - S t))
              (sched_step t c1)) as [Heq|Hlt'];
    [by apply sched_step_inv|by rewrite Heq|lia].
Qed.

Lemma round_robin_finishes (s0 : gmap K V) rounds c :
  inv s0 c -> (fuel c.2 <= rounds)%nat ->
  finished (run (round_robin (length (workers c.2)) rounds) c).2 = true.
Proof.
  revert c. induction rounds as [|rounds IH]; intros c Hc Hfuel.
  - simpl. apply (fuel_zero_finished s0 c Hc). lia.
  - unfold round_robin. simpl. rewrite run_app.
    fold (round_robin (length (workers c.2)) rounds).
    set (c1 := run (seq 0 (length (workers c.2))) c).
    assert (length (workers c1.2) = length (workers c.2)) as Hlen.
    { rewrite <- !(length_fmap w_task). unfold c1. by rewrite run_tasks. }
    rewrite <- Hlen. apply IH; [by apply run_inv|].
    destruct (finished c.2) eqn:Hfin.
    + apply (fuel_zero_finished s0 c Hc) in Hfin.
      destruct (run_same_or_less s0 (seq 0 (length (workers c.2))) c Hc)
        as [Heq|Hlt]; fold c1 in Heq || fold c1 in Hlt; [rewrite Heq|]; lia.
    + pose proof (round_uses_fuel s0 c Hc Hfin) as Hlt. fold c1 in Hlt. lia.
Qed.

(** X15. [exec] terminates under a fair scheduler: when the workers are
    given their turns round-robin, [6 * size + ntask] rounds are enough for
    every worker to have returned, whatever the dataset, the keys and the
    worker count, and the store is then left with no lock held. *)
Theorem exec_round_robin_terminates (s0 : gmap K V) ntask rounds :
  1 <= ntask <= INT_MAX ->
  dataset_size <= SIZE_MAX ->
  (6 * length dataset + Z.to_nat ntask <= rounds)%nat ->
  exists c,
    job_exec ntask s0 (round_robin (Z.to_nat ntask) rounds) = inr c /\
    finished c.2 = true /\
    locks (st_store c.2) = ∅.
Proof.
  intros Hn Hs Hrounds.
  set (ranges := work_range dataset_size ntask <$> seqZ 0 ntask).
  set (c0 := ([], init_state s0 ranges) : config).
  assert (inv s0 c0) as Hc0 by (apply init_inv; by apply ranges_ok).
  assert (length (workers c0.2) = Z.to_nat ntask) as Hlen.
  { simpl. unfold ranges. by rewrite !length_fmap, length_seqZ. }
  assert (fuel c0.2 <= rounds)%nat as Hfuel.
  { unfold c0. simpl.
    change (fuel (init_state s0 ranges) <= rounds)%nat.
    rewrite init_fuel by (by apply ranges_ok). unfold ranges.
    rewrite ranges_concat, length_fmap, length_seqZ by done. lia. }
  exists (run (round_robin (Z.to_nat ntask) rounds) c0).
  assert (finished (run (round_robin (Z.to_nat ntask) rounds) c0).2 = true)
    as Hfin.
  { rewrite <- Hlen. by apply (round_robin_finishes s0). }
  split_and!.
  - by apply job_exec_run.
  - done.
  - eapply finished_locks; [|done]. by apply run_inv.
Qed.

(** *** The locks a run takes *)

(** The key an event locks, and the key it unlocks. *)
Definition lock_of (ev : event) : option K :=
  match ev with EvLock k => Some k | _ => None end.

Definition unlock_of (ev : event) : option K :=
  match ev with EvUnlock k => Some k | _ => None end.

Lemma locks_body_events (recs : list Rec) :
  omap lock_of (flat_map body_events recs) = key <$> recs /\
  omap unlock_of (flat_map body_events recs) = key <$> recs.
Proof.
  induction recs as [|r l [IH1 IH2]]; [done|].
  change (flat_map body_events (r :: l))
    with (body_events r ++ flat_map body_events l).
  by rewrite !omap_app, IH1, IH2.
Qed.

(** X14. The price of a run in locks: when [exec] returns, the locks that
    were taken are, up to their order, the keys of the records of the
    dataset, one acquisition per record, and so are the locks that were
    released; no other key is ever locked. *)
Theorem exec_locks_once_per_record (s0 : gmap K V) ntask sched c :
  1 <= ntask <= INT_MAX ->
  dataset_size <= SIZE_MAX ->
  job_exec ntask s0 sched = inr c ->
  finished c.2 = true ->
  omap lock_of c.1.*2 ≡ₚ key <$> dataset /\
  omap unlock_of c.1.*2 ≡ₚ key <$> dataset.
Proof.
  intros Hn Hs Hc Hfin. pose proof (job_exec_inv ntask Hn Hs _ _ _ Hc) as Hinv.
  rewrite job_exec_run in Hc by done. injection Hc as Hc.
  set (ranges := work_range dataset_size ntask <$> seqZ 0 ntask) in *.
  assert (Htasks : w_task <$> workers c.2 = ranges).
  { rewrite <- Hc, run_tasks. exact (init_tasks s0 ranges). }
  assert (Hwe : worker_events <$> workers c.2 = run_events <$> ranges).
  { rewrite <- Htasks, <- list_fmap_compose. apply list_fmap_ext.
    intros t w Hwt. simpl. by eapply finished_worker_events. }
  assert (Hk : forall f : event -> option K,
            (forall recs, omap f (flat_map body_events recs) = key <$> recs) ->
            f EvReturn = None ->
            omap f c.1.*2 ≡ₚ key <$> dataset).
  { intros f Hf Hret.
    rewrite (trace_by_worker s0 c Hinv), Hwe, omap_concat.
    assert (forall ts : list task,
              concat ((fun l : list event => omap f l) <$> (run_events <$> ts))
              = key <$> concat (task_records <$> ts)) as Hcat.
    { induction ts as [|tk ts IH]; [done|].
      rewrite !fmap_cons. simpl. rewrite fmap_app, <- IH. f_equal.
      unfold run_events. rewrite omap_app, Hf. simpl. rewrite Hret.
      by rewrite app_nil_r. }
    rewrite Hcat. unfold ranges. by rewrite (ranges_concat ntask Hn Hs). }
  split; apply Hk; try done; intros recs; apply locks_body_events.
Qed.

(** *** The lock discipline of a worker *)

(** The keys a worker has locked and unlocked so far: one lock and one
    unlock, of the key of the record, for every record it is through with,
    and one more lock, of the key of the record it is at, while it is
    between [lock] and [unlock]. *)
Lemma locks_worker_events w :
  omap unlock_of (worker_events w)
    = key <$> slice (_begin (w_task w)) (w_i w) /\
  omap lock_of (worker_events w)
    = (key <$> slice (_begin (w_task w)) (w_i w))
      ++ from_option (fun k => [k]) [] (holds w).
Proof.
  unfold worker_events. rewrite !omap_app.
  destruct (locks_body_events (slice (_begin (w_task w)) (w_i w))) as [-> ->].
  unfold holds. destruct (w_pc w); simpl; by rewrite ?app_nil_r.
Qed.

(** A worker that holds a lock is never stuck: its next step is an access
    to the entry of that key or the release of that lock. *)
Lemma step_worker_holder t w s k :
  worker_ok s t w -> holds w = Some k ->
  exists ev w' s',
    step_worker t w s = Some (ev, w', s') /\
    event_key ev = Some k /\ lock_of ev = None.
Proof.
  intros [Hrange Hsize Hrec Hlock Hentry Hold Hret Hcrash] Hh.
  unfold holds in Hh. unfold step_worker.
  destruct w as [tk i p]; simpl in *.
  destruct p; simplify_eq; try (by eauto 7).
  destruct (Hentry r eq_refl) as [old ->]. by eauto 7.
Qed.

(** The iterator moves only in the step that releases the lock. *)
Lemma step_worker_advance t w s ev w' s' :
  step_worker t w s = Some (ev, w', s') ->
  w_i w' = w_i w \/
  (exists r, w_pc w = AtUnlock r /\ ev = EvUnlock (key r) /\
             w_i w' = S (w_i w) /\ w_pc w' = AtTest).
Proof.
  intros Hstep. step_cases w Hstep; auto. right. by exists r.
Qed.

(** C10. In every run of [exec]: a worker holds at most one lock; at the
    loop head, before locking, and after returning it holds none; a step
    that locks key [k] is taken with no lock held; the entry indexed,
    loaded and merged is the one of the key whose lock the worker holds;
    and the lock released is that same lock, after which the worker holds
    none.  The key is each time the key of the record the worker is at.
    A worker that holds a lock is never stuck: it can always take its next
    step, which is an access to the entry of that key or the release of
    that lock.  The keys a worker has released are, in order, the keys it
    has acquired, one for each record it is through with, followed by the
    one it holds if it holds one; its iterator moves to the next record
    only in the step that releases the lock; and every run can be carried
    on until all workers have returned, with every lock released. *)
Theorem worker_lock_discipline (s0 : gmap K V) ntask sched c :
  1 <= ntask <= INT_MAX ->
  dataset_size <= SIZE_MAX ->
  job_exec ntask s0 sched = inr c ->
  (forall t k1 k2,
     locks (st_store c.2) !! k1 = Some t ->
     locks (st_store c.2) !! k2 = Some t -> k1 = k2) /\
  (forall t w k, workers c.2 !! t = Some w ->
     locks (st_store c.2) !! k = Some t ->
     exists r, at_record w = Some r /\ dataset !! w_i w = Some r /\
               k = key r /\ holds w = Some k) /\
  (forall t w, workers c.2 !! t = Some w -> holds w = None ->
     forall k, locks (st_store c.2) !! k <> Some t) /\
  (forall t ev st', step t c.2 = Some (ev, st') ->
     match ev with
     | EvLock k =>
         (forall k', locks (st_store c.2) !! k' <> Some t) /\
         locks (st_store c.2) !! k = None /\
         locks (st_store st') = <[k := t]> (locks (st_store c.2))
     | EvIndex k | EvLoad k | EvMerge k _ =>
         locks (st_store c.2) !! k = Some t /\
         locks (st_store st') = locks (st_store c.2)
     | EvUnlock k =>
         locks (st_store c.2) !! k = Some t /\
         locks (st_store st') = delete k (locks (st_store c.2)) /\
         (forall k', locks (st_store st') !! k' <> Some t)
     | _ => locks (st_store st') = locks (st_store c.2)
     end) /\
  (forall t k, locks (st_store c.2) !! k = Some t ->
     exists ev st', step t c.2 = Some (ev, st') /\
                    event_key ev = Some k /\ lock_of ev = None) /\
  (forall t w, workers c.2 !! t = Some w ->
     omap unlock_of (thread_events t c.1)
       = key <$> slice (_begin (w_task w)) (w_i w) /\
     omap lock_of (thread_events t c.1)
       = omap unlock_of (thread_events t c.1)
         ++ from_option (fun k => [k]) [] (holds w)) /\
  (forall t w ev st' w', workers c.2 !! t = Some w ->
     step t c.2 = Some (ev, st') -> workers st' !! t = Some w' ->
     w_i w' = w_i w \/
     (exists r, w_pc w = AtUnlock r /\ ev = EvUnlock (key r) /\
                w_i w' = S (w_i w) /\ w_pc w' = AtTest /\
                forall k, locks (st_store st') !! k <> Some t)) /\
  (exists sched' c',
     job_exec ntask s0 (sched ++ sched') = inr c' /\
     finished c'.2 = true /\ locks (st_store c'.2) = ∅).
Proof.
  intros Hn Hs Hc.
  pose proof (job_exec_inv ntask Hn Hs _ _ _ Hc) as Hinv.
  pose proof Hinv as [Hw Hev Hl _ _].
  assert (Hown : forall t w k, workers c.2 !! t = Some w ->
            locks (st_store c.2) !! k = Some t -> holds w = Some k).
  { intros t w k Hwt Hk. destruct (Hl k t Hk) as (w1 & Hw1 & Hh).
    by simplify_eq. }
  split_and!.
  - intros t k1 k2 Hk1 Hk2.
    destruct (Hl k1 t Hk1) as (w & Hwt & Hh1).
    pose proof (Hown t w k2 Hwt Hk2) as Hh2. congruence.
  - intros t w k Hwt Hk. pose proof (Hown t w k Hwt Hk) as Hh.
    pose proof (Hw t w Hwt) as Hok.
    unfold holds, at_record in *. destruct w as [tk i p]; simpl in *.
    destruct p; try done; exists r;
      (split_and!; [done|by apply (wk_rec _ _ _ _ _ Hok r)|congruence|done]).
  - intros t w Hwt Hnone k Hk.
    pose proof (Hown t w k Hwt Hk). congruence.
  - intros t ev st' (w & w' & s' & Hwt & Hstep & ->)%step_unfold. simpl.
    eapply step_worker_discipline; eauto.
  - intros t k Hk. destruct (Hl k t Hk) as (w & Hwt & Hh).
    destruct (step_worker_holder t w (st_store c.2) k (Hw t w Hwt) Hh)
      as (ev & w' & s' & Hstep & Hek & Hlo).
    exists ev, (State s' (<[t:=w']> (workers c.2))).
    unfold step. by rewrite Hwt, Hstep.
  - intros t w Hwt. rewrite Hev, Hwt. simpl.
    destruct (locks_worker_events w) as [Hu Hlk]. by rewrite Hlk, Hu.
  - intros t w ev st' w' Hwt (w0 & w1 & s' & Hwt0 & Hstep & ->)%step_unfold.
    simpl. simplify_eq.
    rewrite list_lookup_insert_eq by (by eapply lookup_lt_Some).
    intros [= <-].
    destruct (step_worker_advance _ _ _ _ _ _ Hstep)
      as [?|(r & Hpc & -> & Hi & Hpc')]; [by left|right].
    exists r. split_and!; try done.
    assert (forall k, locks (st_store c.2) !! k = Some t -> holds w = Some k)
      as Hown' by (intros k; by apply Hown).
    pose proof (step_worker_discipline _ _ _ _ _ _ (Hw t w Hwt) Hown' Hstep)
      as (_ & _ & Hnone).
    done.
  - destruct (job_exec_completes ntask Hn Hs s0 sched) as (sched' & c' & Hc' & Hfin).
    exists sched', c'. split_and!; try done.
    eapply finished_locks; [|done]. by eapply job_exec_inv.
Qed.

End ModelFacts.

(* ===================================================================== *)
(** ** The partition computed by [exec] *)
(* ===================================================================== *)

(** C1. For a dataset of [size] records and [ntask >= 1] workers, [exec]
    builds [ntask] tasks: worker [i <= ntask-2] gets the half-open range
    [[chunk*i, chunk*(i+1))] with [chunk = floor(size/ntask)], the last
    worker gets [[chunk*(ntask-1), size)]; the ranges are pairwise
    disjoint, their union is [[0, size)], and every range but the last has
    [chunk] positions. *)
Theorem exec_ranges_partition (size ntask : Z) :
  1 <= ntask <= INT_MAX ->
  0 <= size <= SIZE_MAX ->
  exists ts,
    exec_tasks size ntask = inr ts /\
    length ts = Z.to_nat ntask /\
    (forall i, 0 <= i < ntask - 1 ->
       ts !! Z.to_nat i = Some (Task (Z.to_nat (size / ntask * i))
                                     (Z.to_nat (size / ntask * (i + 1))))) /\
    ts !! Z.to_nat (ntask - 1)
      = Some (Task (Z.to_nat (size / ntask * (ntask - 1))) (Z.to_nat size)) /\
    (forall i j ti tj p, ts !! i = Some ti -> ts !! j = Some tj ->
       in_range p ti -> in_range p tj -> i = j) /\
    (forall p, (p < Z.to_nat size)%nat <->
       exists i ti, ts !! i = Some ti /\ in_range p ti) /\
    (forall i ti, ts !! i = Some ti -> Z.of_nat i < ntask - 1 ->
       Z.of_nat (_end ti) - Z.of_nat (_begin ti) = size / ntask).
Proof.
  intros Hn Hs. exists (work_range size ntask <$> seqZ 0 ntask).
  assert (0 <= size / ntask) as Hchunk by (apply Z.div_pos; lia).
  split_and!.
  - by apply exec_tasks_ranges.
  - by rewrite length_fmap, length_seqZ.
  - intros i Hi. apply ranges_lookup. split; [lia|].
    rewrite Z2Nat.id by lia. unfold work_range.
    destruct (Z.ltb_spec i (ntask - 1)); [done|lia].
  - apply ranges_lookup. split; [lia|].
    rewrite Z2Nat.id by lia. unfold work_range.
    destruct (Z.ltb_spec (ntask - 1) (ntask - 1)); [lia|done].
  - intros i j ti tj p [Hi ->]%ranges_lookup [Hj ->]%ranges_lookup Hpi Hpj.
    apply Nat2Z.inj.
    eapply (work_range_disjoint size ntask Hn Hs); [| |exact Hpi|exact Hpj]; lia.
  - intros p. split.
    + intros Hp.
      destruct (work_range_covers size ntask Hn Hs p Hp) as (i & Hi & Hin).
      exists (Z.to_nat i), (work_range size ntask i). split; [|done].
      apply ranges_lookup. split; [lia|]. by rewrite Z2Nat.id by lia.
    + intros (i & ti & [Hi ->]%ranges_lookup & Hin). unfold in_range in Hin.
      pose proof (work_range_bounds size ntask Hn Hs (Z.of_nat i)). lia.
  - intros i ti [Hi ->]%ranges_lookup Hlt.
    rewrite work_range_begin, work_range_end by lia.
    assert (0 <= size / ntask * Z.of_nat i) by nia.
    assert (0 <= size / ntask * (Z.of_nat i + 1)) by nia.
    rewrite !Z2Nat.id by done. lia.
Qed.

Lemma exec_ranges_partition_witness :
  1 <= 3 <= INT_MAX /\ 0 <= 10 <= SIZE_MAX /\
  exists ts,
    exec_tasks 10 3 = inr ts /\
    ts = [Task 0 3; Task 3 6; Task 6 10] /\
    (forall p, (p < 10)%nat <-> exists i ti, ts !! i = Some ti /\ in_range p ti).
Proof.
  assert (1 <= 3 <= INT_MAX) as Hn by (unfold INT_MAX; lia).
  assert (0 <= 10 <= SIZE_MAX) as Hs by (unfold SIZE_MAX; lia).
  split; [exact Hn|]. split; [exact Hs|].
  destruct (exec_ranges_partition 10 3 Hn Hs)
    as (ts & Hex & _ & _ & _ & _ & Hcover & _).
  exists ts. split; [exact Hex|]. split; [|exact Hcover].
  vm_compute in Hex. congruence.
Defined.

(** C9. Under the precondition [ntask >= 1] every access [exec] makes to
    the array [tasks] is in bounds: the first loop writes the slots
    [0 .. ntask-2], slot [ntask-1] is written next, and the start and join
    loops each read exactly the slots [0 .. ntask-1].  Without the
    precondition this fails: for [ntask = 0] the index [ntask-1] is outside
    the array that was allocated, and [exec] faults (the division by the
    worker count comes even before that access). *)
Theorem exec_accesses_in_bounds (size ntask : Z) :
  1 <= ntask <= INT_MAX ->
  0 <= size <= SIZE_MAX ->
  (exists h,
     exec size ntask empty_heap = inr (tt, h) /\
     length (tasks h) = Z.to_nat ntask /\
     accesses h = (Write <$> seqZ 0 (ntask - 1)) ++ [Write (ntask - 1)]
                  ++ (Read <$> seqZ 0 ntask) ++ (Read <$> seqZ 0 ntask) /\
     Forall (fun a => 0 <= access_index a < ntask) (accesses h)) /\
  (forall t, bind (new_tasks 0) (fun _ => store_task (0 - 1) t) empty_heap
             = inl (OutOfBounds (-1) 0)) /\
  exec size 0 empty_heap = inl DivideByZero.
Proof.
  intros Hn Hs. split_and!; [|done|done].
  destruct (exec_heap size ntask Hn Hs) as (h & Hex & Hlen & Hacc & _ & _).
  exists h. split_and!; try done.
  - rewrite Hacc. replace ntask with (ntask - 1 + 1) at 1 by lia.
    rewrite seqZ_snoc by lia. by rewrite fmap_app, <- app_assoc.
  - rewrite Hacc. rewrite !Forall_app, !Forall_fmap, !Forall_seqZ.
    split_and!; intros i Hi; simpl; lia.
Qed.

Lemma exec_accesses_in_bounds_witness :
  1 <= 2 <= INT_MAX /\ 0 <= 5 <= SIZE_MAX /\
  exists h,
    exec 5 2 empty_heap = inr (tt, h) /\
    accesses h = [Write 0; Write 1; Read 0; Read 1; Read 0; Read 1] /\
    Forall (fun a => 0 <= access_index a < 2) (accesses h).
Proof.
  assert (1 <= 2 <= INT_MAX) as Hn by (unfold INT_MAX; lia).
  assert (0 <= 5 <= SIZE_MAX) as Hs by (unfold SIZE_MAX; lia).
  split; [exact Hn|]. split; [exact Hs|].
  destruct (exec_accesses_in_bounds 5 2 Hn Hs)
    as [(h & Hex & _ & Hacc & Hall) _].
  exists h. split; [exact Hex|]. split; [exact Hacc|exact Hall].
Defined.

(** C3. When there are more workers than records, [chunk = floor(S/N)] is
    0: every range but the last is the empty range [[0, 0)] and the last
    worker's range is [[0, S)], the whole dataset; the records handed out,
    taken in worker order, are the dataset, each record once, and only the
    last worker has any. *)
Theorem exec_more_workers_than_records {Rec : Type} (dataset : list Rec)
    (ntask : Z) :
  1 <= ntask <= INT_MAX ->
  dataset_size dataset <= SIZE_MAX ->
  dataset_size dataset < ntask ->
  dataset_size dataset / ntask = 0 /\
  exists ts,
    exec_tasks (dataset_size dataset) ntask = inr ts /\
    length ts = Z.to_nat ntask /\
    (forall i tk, ts !! i = Some tk -> Z.of_nat i < ntask - 1 ->
       tk = Task 0 0 /\ task_records dataset tk = []) /\
    ts !! Z.to_nat (ntask - 1) = Some (Task 0 (length dataset)) /\
    task_records dataset (Task 0 (length dataset)) = dataset /\
    concat (task_records dataset <$> ts) = dataset /\
    (forall p i tk, ts !! i = Some tk -> in_range p tk ->
       i = Z.to_nat (ntask - 1)).
Proof.
  intros Hn Hs Hlt.
  pose proof (dataset_size_nonneg dataset Hs) as Hs'.
  assert (dataset_size dataset / ntask = 0) as Hchunk
    by (apply Z.div_small; lia).
  split; [done|].
  exists (work_range (dataset_size dataset) ntask <$> seqZ 0 ntask).
  assert (forall i, 0 <= i < ntask - 1 ->
            work_range (dataset_size dataset) ntask i = Task 0 0) as Hempty.
  { intros i Hi. unfold work_range. rewrite Hchunk.
    destruct (Z.ltb_spec i (ntask - 1)); [done|lia]. }
  assert (work_range (dataset_size dataset) ntask (ntask - 1)
          = Task 0 (length dataset)) as Hlast.
  { unfold work_range. rewrite Hchunk.
    destruct (Z.ltb_spec (ntask - 1) (ntask - 1)); [lia|].
    unfold dataset_size. by rewrite Nat2Z.id. }
  split_and!.
  - by apply exec_tasks_ranges.
  - by rewrite length_fmap, length_seqZ.
  - intros i tk [Hi ->]%ranges_lookup Hi'. rewrite Hempty by lia.
    split; [done|]. unfold task_records. simpl. apply slice_nil.
  - apply ranges_lookup. split; [lia|]. rewrite Z2Nat.id by lia. by rewrite Hlast.
  - unfold task_records. simpl. apply slice_all.
  - by apply ranges_concat.
  - intros p i tk [Hi ->]%ranges_lookup Hin.
    destruct (decide (Z.of_nat i < ntask - 1)) as [Hi'|Hi']; [|lia].
    rewrite Hempty in Hin by lia. unfold in_range in Hin. simpl in Hin. lia.
Qed.

Lemma exec_more_workers_than_records_witness :
  1 <= 5 <= INT_MAX /\
  dataset_size [7; 8]%nat <= SIZE_MAX /\
  dataset_size [7; 8]%nat < 5 /\
  exec_tasks (dataset_size [7; 8]%nat) 5
    = inr [Task 0 0; Task 0 0; Task 0 0; Task 0 0; Task 0 2] /\
  concat (task_records [7; 8]%nat
            <$> [Task 0 0; Task 0 0; Task 0 0; Task 0 0; Task 0 2])
    = [7; 8]%nat.
Proof.
  assert (1 <= 5 <= INT_MAX) as Hn by (unfold INT_MAX; lia).
  assert (dataset_size [7; 8]%nat <= SIZE_MAX) as Hs by (vm_compute; discriminate).
  assert (dataset_size [7; 8]%nat < 5) as Hlt by (vm_compute; reflexivity).
  split; [exact Hn|]. split; [exact Hs|]. split; [exact Hlt|].
  destruct (exec_more_workers_than_records [7; 8]%nat 5 Hn Hs Hlt)
    as (_ & ts & Hex & _ & _ & _ & _ & Hcat & _).
  assert (ts = [Task 0 0; Task 0 0; Task 0 0; Task 0 0; Task 0 2]) as Hts
    by (vm_compute in Hex; congruence).
  rewrite <- Hts. split; [exact Hex|exact Hcat].
Defined.

(* ===================================================================== *)
(** ** The partitioner *)
(* ===================================================================== *)

Section PartitionerFacts.
Context {K : Type} `{EqDecision K}.
Variable key_to_uint64 : K -> Z.
Variable RAND_INT3_MIX64 : Z -> Z.

Local Abbreviation partitioner_slot :=
  (partitioner_slot key_to_uint64 RAND_INT3_MIX64).

(** C7. Two partitioners are equal for [operator==] exactly when their
    keys are equal, and the slot is a function of the key alone:
    partitioners of the same key convert to the same slot (a [size_t]
    value), however often the conversion is made. *)
Theorem partitioner_eq_and_slot (p q : partitioner K) :
  (partitioner_eq p q = true <-> _key p = _key q) /\
  (_key p = _key q -> partitioner_slot p = partitioner_slot q) /\
  partitioner_slot (Partitioner (_key p)) = partitioner_slot p /\
  0 <= partitioner_slot p <= SIZE_MAX.
Proof.
  assert (0 <= partitioner_slot p <= SIZE_MAX) as Hrange.
  { unfold partitioner_slot. cbv zeta.
    set (h := to_size_t (RAND_INT3_MIX64 _)).
    clearbody h. unfold to_size_t, SIZE_MAX.
    pose proof (Z.mod_pos_bound h (2 ^ 64)). lia. }
  split; [|split; [|split]]; [| | |exact Hrange].
  - unfold partitioner_eq. apply bool_decide_eq_true.
  - unfold partitioner_slot. by intros ->.
  - done.
Qed.
End PartitionerFacts.

(* ===================================================================== *)
(** ** Counting jobs: no lost update *)
(* ===================================================================== *)

Section Counting.
Context {Rec K : Type} `{Countable K}.
Variable key : Rec -> K.
Variable dataset : list Rec.

Local Abbreviation job_exec := (job_exec key count_value 0 Z.add dataset).
Local Abbreviation step := (step key count_value 0 Z.add dataset).
Local Abbreviation holds := (holds key).
Local Abbreviation sequential_fold := (sequential_fold key count_value 0 Z.add).
Local Abbreviation dataset_size := (dataset_size dataset).

Lemma count_sequential_fold (s0 : gmap K Z) recs k :
  count_of (sequential_fold s0 recs) k
  = count_of s0 k + records_with_key key k recs.
Proof.
  revert s0. induction recs as [|r recs IH]; intros s0.
  - unfold records_with_key. simpl. lia.
  - change (sequential_fold s0 (r :: recs))
      with (sequential_fold (merge_into 0 Z.add s0 (key r) (count_value r)) recs).
    rewrite IH. unfold records_with_key, merge_into, count_of, count_value.
    rewrite filter_cons. destruct (decide (key r = k)) as [->|Hne].
    + rewrite lookup_insert_eq. simpl. lia.
    + rewrite lookup_insert_ne by done. lia.
Qed.

(** C8. In every run of [exec] of a counting job, two workers are never
    at the same time between [lock] and [unlock] of the same key; a merge
    step adds exactly 1 to the count the store holds for its key at that
    moment; and once [exec] has returned, the count of every key has
    grown by exactly the number of records mapped to that key, for every
    worker count and every interleaving.  Every run can be completed. *)
Theorem counting_no_lost_update (s0 : gmap K Z) ntask sched c :
  1 <= ntask <= INT_MAX ->
  dataset_size <= SIZE_MAX ->
  job_exec ntask s0 sched = inr c ->
  (forall t1 t2 w1 w2 k,
     workers c.2 !! t1 = Some w1 -> workers c.2 !! t2 = Some w2 ->
     holds w1 = Some k -> holds w2 = Some k -> t1 = t2) /\
  (forall t k v st', step t c.2 = Some (EvMerge k v, st') ->
     count_of (entries (st_store st')) k
     = count_of (entries (st_store c.2)) k + 1) /\
  (finished c.2 = true -> forall k,
     count_of (entries (st_store c.2)) k
     = count_of s0 k + records_with_key key k dataset) /\
  (exists sched' c',
     job_exec ntask s0 (sched ++ sched') = inr c' /\ finished c'.2 = true).
Proof.
  intros Hn Hs Hc.
  pose proof (job_exec_inv key count_value 0 Z.add dataset ntask Hn Hs
                _ _ _ Hc) as [Hw _ _ _ _].
  split_and!.
  - intros t1 t2 w1 w2 k Hw1 Hw2 Hh1 Hh2.
    pose proof (wk_lock _ _ _ _ _ (Hw t1 w1 Hw1) k Hh1) as Hl1.
    pose proof (wk_lock _ _ _ _ _ (Hw t2 w2 Hw2) k Hh2) as Hl2.
    congruence.
  - intros t k v st' (w & w' & s' & Hwt & Hstep & ->)%step_unfold. simpl.
    pose proof (step_worker_effect _ _ _ _ _ _ _ _ _ _ _
                  (Hw t w Hwt) Hstep) as Heff.
    simpl in Heff. rewrite Heff. unfold merge_into, count_of.
    rewrite lookup_insert_eq. simpl.
    assert (v = 1) as ->; [|done].
    clear -Hstep. unfold step_worker in Hstep.
    destruct (w_pc w); repeat case_match; by simplify_eq.
  - intros Hfin k.
    rewrite (job_exec_finished_comm key count_value 0 Z.add dataset ntask
               Hn Hs s0 sched c); try done.
    + apply count_sequential_fold.
    + intros; lia.
    + intros; lia.
  - by apply job_exec_completes.
Qed.
End Counting.

(* ===================================================================== *)
(** ** The model at work on a small job *)
(* ===================================================================== *)

Lemma INT_MAX_bounds_1 : 1 <= 1 <= INT_MAX.
Proof. unfold INT_MAX. lia. Defined.

Lemma INT_MAX_bounds_2 : 1 <= 2 <= INT_MAX.
Proof. unfold INT_MAX. lia. Defined.

Lemma INT_MAX_bounds_3 : 1 <= 3 <= INT_MAX.
Proof. unfold INT_MAX. lia. Defined.

Lemma sample_dataset_size : dataset_size sample_dataset <= SIZE_MAX.
Proof. vm_compute. discriminate. Defined.

Lemma exec_single_worker_sequential_witness :
  dataset_size sample_dataset <= SIZE_MAX /\
  exists c,
    job_exec parity_key number_value 0 Z.add sample_dataset 1 ∅
      (round_robin 1 40) = inr c /\
    finished c.2 = true /\
    entries (st_store c.2)
      = sequential_fold parity_key number_value 0 Z.add ∅ sample_dataset /\
    entries (st_store c.2) !! 1%nat = Some 9 /\
    entries (st_store c.2) !! 0%nat = Some 6.
Proof.
  split; [exact sample_dataset_size|].
  destruct (job_exec parity_key number_value 0 Z.add sample_dataset 1 ∅
              (round_robin 1 40)) as [e|c] eqn:Hc;
    [vm_compute in Hc; discriminate|].
  assert (finished c.2 = true) as Hfin.
  { pose proof Hc as Hc'. vm_compute in Hc'. injection Hc' as <-.
    vm_compute. reflexivity. }
  destruct (exec_single_worker_sequential parity_key number_value 0 Z.add
              sample_dataset ∅ sample_dataset_size) as (_ & _ & Hseq).
  destruct (Hseq _ c Hc Hfin) as [_ Hent].
  exists c. split; [reflexivity|]. split; [exact Hfin|]. split; [exact Hent|].
  rewrite Hent. split; vm_compute; reflexivity.
Defined.

Lemma exec_result_independent_of_worker_count_witness :
  exists c1 c2,
    job_exec parity_key number_value 0 Z.add sample_dataset 1 ∅
      (round_robin 1 40) = inr c1 /\
    finished c1.2 = true /\
    job_exec parity_key number_value 0 Z.add sample_dataset 2 ∅
      (round_robin 2 25) = inr c2 /\
    finished c2.2 = true /\
    (forall k, entries (st_store c1.2) !! k = entries (st_store c2.2) !! k).
Proof.
  destruct (job_exec parity_key number_value 0 Z.add sample_dataset 1 ∅
              (round_robin 1 40)) as [e|c1] eqn:Hc1;
    [vm_compute in Hc1; discriminate|].
  destruct (job_exec parity_key number_value 0 Z.add sample_dataset 2 ∅
              (round_robin 2 25)) as [e|c2] eqn:Hc2;
    [vm_compute in Hc2; discriminate|].
  assert (finished c1.2 = true) as Hf1.
  { pose proof Hc1 as Hc'. vm_compute in Hc'. injection Hc' as <-.
    vm_compute. reflexivity. }
  assert (finished c2.2 = true) as Hf2.
  { pose proof Hc2 as Hc'. vm_compute in Hc'. injection Hc' as <-.
    vm_compute. reflexivity. }
  exists c1, c2. split; [reflexivity|]. split; [exact Hf1|].
  split; [reflexivity|]. split; [exact Hf2|].
  apply (exec_result_independent_of_worker_count parity_key number_value 0
           Z.add sample_dataset ∅ 1 2 (round_robin 1 40) (round_robin 2 25)
           c1 c2 Z.add_comm (fun x y z => eq_sym (Z.add_assoc x y z))
           sample_dataset_size INT_MAX_bounds_1 INT_MAX_bounds_2
           Hc1 Hf1 Hc2 Hf2).
Defined.


Lemma exec_empty_dataset_witness :
  1 <= 3 <= INT_MAX /\
  exists c,
    job_exec parity_key number_value 0 Z.add [] 3 {[ 1%nat := 7 ]}
      [0; 1; 2]%nat = inr c /\
    entries (st_store c.2) = {[ 1%nat := 7 ]} /\
    locks (st_store c.2) = ∅ /\
    finished c.2 = true.
Proof.
  split; [exact INT_MAX_bounds_3|].
  destruct (exec_empty_dataset parity_key number_value 0 Z.add []
              {[ 1%nat := 7 ]} 3 [0; 1; 2]%nat INT_MAX_bounds_3 eq_refl)
    as (c & Hc & _ & _ & Hent & Hlocks & _ & Hfin).
  exists c. split; [exact Hc|]. split; [exact Hent|]. split; [exact Hlocks|].
  apply Hfin. intros t Ht.
  destruct t as [|[|[|t]]].
  - apply list_elem_of_here.
  - apply list_elem_of_further, list_elem_of_here.
  - apply list_elem_of_further, list_elem_of_further, list_elem_of_here.
  - exfalso. change (Z.to_nat 3) with 3%nat in Ht. lia.
Defined.

Lemma counting_no_lost_update_witness :
  exists c,
    job_exec parity_key count_value 0 Z.add sample_dataset 2 ∅
      (round_robin 2 25) = inr c /\
    finished c.2 = true /\
    count_of (entries (st_store c.2)) 1%nat = 3 /\
    count_of (entries (st_store c.2)) 0%nat = 2.
Proof.
  destruct (job_exec parity_key count_value 0 Z.add sample_dataset 2 ∅
              (round_robin 2 25)) as [e|c] eqn:Hc;
    [vm_compute in Hc; discriminate|].
  assert (finished c.2 = true) as Hfin.
  { pose proof Hc as Hc'. vm_compute in Hc'. injection Hc' as <-.
    vm_compute. reflexivity. }
  destruct (counting_no_lost_update parity_key sample_dataset ∅ 2
              (round_robin 2 25) c INT_MAX_bounds_2 sample_dataset_size Hc)
    as (_ & _ & Hcount & _).
  exists c. split; [reflexivity|]. split; [exact Hfin|].
  split; rewrite (Hcount Hfin); vm_compute; reflexivity.
Defined.

Lemma worker_lock_discipline_witness :
  exists c,
    job_exec parity_key number_value 0 Z.add sample_dataset 2 ∅
      [0; 0; 0; 0; 0; 0; 0; 0; 1; 1]%nat = inr c /\
    locks (st_store c.2) !! 0%nat = Some 0%nat /\
    (forall k1 k2,
       locks (st_store c.2) !! k1 = Some 0%nat ->
       locks (st_store c.2) !! k2 = Some 0%nat -> k1 = k2) /\
    (exists ev st',
       step parity_key number_value 0 Z.add sample_dataset 0%nat c.2
         = Some (ev, st') /\
       event_key ev = Some 0%nat /\ lock_of ev = None) /\
    omap unlock_of (thread_events 0%nat c.1) = [1%nat] /\
    omap lock_of (thread_events 0%nat c.1) = [1%nat; 0%nat] /\
    (exists sched' c',
       job_exec parity_key number_value 0 Z.add sample_dataset 2 ∅
         ([0; 0; 0; 0; 0; 0; 0; 0; 1; 1]%nat ++ sched') = inr c' /\
       finished c'.2 = true /\ locks (st_store c'.2) = ∅).
Proof.
  destruct (job_exec parity_key number_value 0 Z.add sample_dataset 2 ∅
              [0; 0; 0; 0; 0; 0; 0; 0; 1; 1]%nat) as [e|c] eqn:Hc;
    [vm_compute in Hc; discriminate|].
  destruct (worker_lock_discipline parity_key number_value 0 Z.add
              sample_dataset ∅ 2 [0; 0; 0; 0; 0; 0; 0; 0; 1; 1]%nat c
              INT_MAX_bounds_2 sample_dataset_size Hc)
    as (Hone & _ & _ & _ & Hnext & Htrace & _ & Hdone).
  pose proof Hc as Hc'. vm_compute in Hc'. injection Hc' as Hc'.
  assert (locks (st_store c.2) !! 0%nat = Some 0%nat) as Hheld
    by (rewrite <- Hc'; vm_compute; reflexivity).
  assert (workers c.2 !! 0%nat
            = Some (Worker (Task 0 2) 1 (AtIndex 2%nat))) as Hw
    by (rewrite <- Hc'; vm_compute; reflexivity).
  destruct (Htrace _ _ Hw) as [Hunlocks Hlocks].
  exists c. split; [reflexivity|].
  split; [exact Hheld|].
  split; [exact (Hone 0%nat)|].
  split; [exact (Hnext _ _ Hheld)|].
  split; [exact Hunlocks|].
  split; [rewrite Hlocks, Hunlocks; reflexivity|].
  exact Hdone.
Defined.

(* ===================================================================== *)
(** ** Further properties of [exec], of two calls in a row, and of the
       combiner *)
(* ===================================================================== *)

Definition INT_MIN : Z := - 2 ^ 31.

(** X1. [exec] gets as far as starting workers exactly when the worker
    count is at least 1: a negative count faults at the allocation of the
    task array, a count of 0 at the division of the dataset size by it,
    in both cases before any task is built; a count of at least 1 never
    faults. *)
Theorem exec_faults_iff_no_worker (size ntask : Z) :
  INT_MIN <= ntask <= INT_MAX ->
  0 <= size <= SIZE_MAX ->
  (ntask < 0 -> exec size ntask empty_heap = inl (BadArrayLength ntask)) /\
  (ntask = 0 -> exec size ntask empty_heap = inl DivideByZero) /\
  ((exists h, exec size ntask empty_heap = inr (tt, h)) <-> 1 <= ntask) /\
  ((exists ts, exec_tasks size ntask = inr ts) <-> 1 <= ntask).
Proof.
  intros Hn Hs.
  assert (ntask < 0 -> exec size ntask empty_heap = inl (BadArrayLength ntask))
    as Hneg.
  { intros Hlt. unfold exec, bind, new_tasks.
    destruct (Z.ltb_spec ntask 0); [done|lia]. }
  assert (ntask = 0 -> exec size ntask empty_heap = inl DivideByZero) as Hzero.
  { by intros ->. }
  split_and!; try done.
  - split.
    + intros [h Hh]. destruct (decide (ntask < 0)) as [Hlt|Hge].
      * rewrite Hneg in Hh by done. done.
      * destruct (decide (ntask = 0)) as [Hz|Hnz]; [|lia].
        rewrite Hzero in Hh by done. done.
    + intros Hpos. destruct (exec_heap size ntask) as (h & Hh & _); [lia|done|].
      eauto.
  - unfold exec_tasks. split.
    + intros [ts Hts]. destruct (decide (ntask < 0)) as [Hlt|Hge].
      * rewrite Hneg in Hts by done. done.
      * destruct (decide (ntask = 0)) as [Hz|Hnz]; [|lia].
        rewrite Hzero in Hts by done. done.
    + intros Hpos. destruct (exec_heap size ntask) as (h & -> & _); [lia|done|].
      eauto.
Qed.

Lemma exec_faults_iff_no_worker_witness :
  INT_MIN <= -3 <= INT_MAX /\ 0 <= 10 <= SIZE_MAX /\
  exec 10 (-3) empty_heap = inl (BadArrayLength (-3)) /\
  ~ (exists ts, exec_tasks 10 (-3) = inr ts).
Proof.
  assert (INT_MIN <= -3 <= INT_MAX) as Hn by (unfold INT_MIN, INT_MAX; lia).
  assert (0 <= 10 <= SIZE_MAX) as Hs by (unfold SIZE_MAX; lia).
  destruct (exec_faults_iff_no_worker 10 (-3) Hn Hs) as (Hneg & _ & _ & Hiff).
  split; [exact Hn|]. split; [exact Hs|].
  split; [apply Hneg; lia|].
  intros Hex. apply Hiff in Hex. lia.
Defined.

(** X2. The split is uneven only at the end: the last worker gets the
    [floor(size/ntask)] records of a full chunk plus the whole remainder
    [size mod ntask], that is up to [ntask - 1] records more than any other
    worker; when [ntask] divides [size] all ranges have the same length. *)
Theorem exec_last_range_takes_remainder (size ntask : Z) :
  1 <= ntask <= INT_MAX ->
  0 <= size <= SIZE_MAX ->
  exists ts tk,
    exec_tasks size ntask = inr ts /\
    ts !! Z.to_nat (ntask - 1) = Some tk /\
    Z.of_nat (_end tk) - Z.of_nat (_begin tk)
      = size / ntask + size mod ntask /\
    Z.of_nat (_end tk) - Z.of_nat (_begin tk) < size / ntask + ntask /\
    (size mod ntask = 0 ->
     forall i ti, ts !! i = Some ti ->
       Z.of_nat (_end ti) - Z.of_nat (_begin ti) = size / ntask).
Proof.
  intros Hn Hs.
  exists (work_range size ntask <$> seqZ 0 ntask),
         (work_range size ntask (ntask - 1)).
  assert (0 <= size / ntask) as Hchunk by (apply Z.div_pos; lia).
  pose proof (Z.mod_pos_bound size ntask ltac:(lia)) as Hmod.
  pose proof (Z.div_mod size ntask ltac:(lia)) as Hdm.
  assert (Z.of_nat (_end (work_range size ntask (ntask - 1)))
          - Z.of_nat (_begin (work_range size ntask (ntask - 1)))
          = size / ntask + size mod ntask) as Hlast.
  { rewrite work_range_begin, work_range_end_last by lia.
    assert (0 <= size / ntask * (ntask - 1)) by nia.
    rewrite !Z2Nat.id by lia. nia. }
  split_and!.
  - by apply exec_tasks_ranges.
  - apply ranges_lookup. split; [lia|]. by rewrite Z2Nat.id by lia.
  - done.
  - lia.
  - intros Hz i ti [Hi ->]%ranges_lookup.
    destruct (decide (Z.of_nat i = ntask - 1)) as [->|Hne].
    + lia.
    + rewrite work_range_begin, work_range_end by lia.
      assert (0 <= size / ntask * Z.of_nat i) by nia.
      assert (0 <= size / ntask * (Z.of_nat i + 1)) by nia.
      rewrite !Z2Nat.id by done. lia.
Qed.

Lemma exec_last_range_takes_remainder_witness :
  1 <= 4 <= INT_MAX /\ 0 <= 11 <= SIZE_MAX /\
  exists ts tk,
    exec_tasks 11 4 = inr ts /\
    ts = [Task 0 2; Task 2 4; Task 4 6; Task 6 11] /\
    ts !! 3%nat = Some tk /\
    Z.of_nat (_end tk) - Z.of_nat (_begin tk) = 11 / 4 + 11 mod 4.
Proof.
  assert (1 <= 4 <= INT_MAX) as Hn by (unfold INT_MAX; lia).
  assert (0 <= 11 <= SIZE_MAX) as Hs by (unfold SIZE_MAX; lia).
  split; [exact Hn|]. split; [exact Hs|].
  destruct (exec_last_range_takes_remainder 11 4 Hn Hs)
    as (ts & tk & Hex & Hlk & Hsz & _).
  exists ts, tk. split; [exact Hex|].
  split; [vm_compute in Hex; congruence|]. split; [exact Hlk|exact Hsz].
Defined.

(** X3. [exec] deletes, and so joins, exactly the tasks it has started, in
    the order it started them, one per worker: when it returns no started
    worker is left unjoined and no task has been deleted twice. *)
Theorem exec_joins_what_it_starts (size ntask : Z) :
  1 <= ntask <= INT_MAX ->
  0 <= size <= SIZE_MAX ->
  exists h,
    exec size ntask empty_heap = inr (tt, h) /\
    deleted h = started h /\
    length (started h) = Z.to_nat ntask /\
    (forall i, 0 <= i < ntask ->
       started h !! Z.to_nat i = Some (work_range size ntask i)).
Proof.
  intros Hn Hs.
  destruct (exec_heap size ntask Hn Hs) as (h & Hh & _ & _ & Hst & Hdel).
  exists h. split_and!; try done.
  - by rewrite Hst, Hdel.
  - by rewrite Hst, length_fmap, length_seqZ.
  - intros i Hi. rewrite Hst. apply ranges_lookup.
    split; [lia|]. by rewrite Z2Nat.id by lia.
Qed.

Lemma exec_joins_what_it_starts_witness :
  1 <= 3 <= INT_MAX /\ 0 <= 10 <= SIZE_MAX /\
  exists h,
    exec 10 3 empty_heap = inr (tt, h) /\
    deleted h = started h /\
    started h = [Task 0 3; Task 3 6; Task 6 10].
Proof.
  assert (1 <= 3 <= INT_MAX) as Hn by (unfold INT_MAX; lia).
  assert (0 <= 10 <= SIZE_MAX) as Hs by (unfold SIZE_MAX; lia).
  split; [exact Hn|]. split; [exact Hs|].
  destruct (exec_joins_what_it_starts 10 3 Hn Hs) as (h & Hex & Hdel & _).
  exists h. split; [exact Hex|]. split; [exact Hdel|].
  vm_compute in Hex. injection Hex as <-. reflexivity.
Defined.

(** X10. Two calls of [exec] in a row on the same output store accumulate:
    with a commutative and associative combiner, running a job over a
    first dataset and then a job over a second one, whatever the worker
    counts and interleavings, leaves the store that one sequential fold
    over the first dataset followed by the second leaves.  The first call
    hands the store over with no lock held. *)
Theorem exec_twice_accumulates {Rec K V : Type} `{Countable K}
    (key : Rec -> K) (value : Rec -> V) (V0 : V) (combine : V -> V -> V)
    (d1 d2 : list Rec) (s0 : gmap K V) n1 n2 sched1 sched2 c1 c2 :
  (forall x y, combine x y = combine y x) ->
  (forall x y z, combine (combine x y) z = combine x (combine y z)) ->
  dataset_size d1 <= SIZE_MAX -> dataset_size d2 <= SIZE_MAX ->
  1 <= n1 <= INT_MAX -> 1 <= n2 <= INT_MAX ->
  job_exec key value V0 combine d1 n1 s0 sched1 = inr c1 ->
  finished c1.2 = true ->
  job_exec key value V0 combine d2 n2 (entries (st_store c1.2)) sched2
    = inr c2 ->
  finished c2.2 = true ->
  locks (st_store c1.2) = ∅ /\
  entries (st_store c2.2)
    = sequential_fold key value V0 combine s0 (d1 ++ d2).
Proof.
  intros Hcomm Hassoc Hs1 Hs2 Hn1 Hn2 Hc1 Hf1 Hc2 Hf2. split.
  - apply (finished_locks key value V0 combine d1 s0 c1); [|done].
    by apply (job_exec_inv key value V0 combine d1 n1 Hn1 Hs1 s0 sched1).
  - rewrite (job_exec_finished_comm key value V0 combine d2 n2 Hn2 Hs2
               _ sched2 c2 Hcomm Hassoc Hc2 Hf2).
    rewrite (job_exec_finished_comm key value V0 combine d1 n1 Hn1 Hs1
               _ sched1 c1 Hcomm Hassoc Hc1 Hf1).
    unfold sequential_fold. by rewrite foldl_app.
Qed.

Lemma exec_twice_accumulates_witness :
  exists c1 c2,
    job_exec parity_key number_value 0 Z.add [1; 2; 3]%nat 2 ∅
      (round_robin 2 20) = inr c1 /\
    finished c1.2 = true /\
    job_exec parity_key number_value 0 Z.add [4; 5]%nat 1
      (entries (st_store c1.2)) (round_robin 1 20) = inr c2 /\
    finished c2.2 = true /\
    entries (st_store c2.2)
      = sequential_fold parity_key number_value 0 Z.add ∅ sample_dataset /\
    entries (st_store c2.2) !! 1%nat = Some 9.
Proof.
  destruct (job_exec parity_key number_value 0 Z.add [1; 2; 3]%nat 2 ∅
              (round_robin 2 20)) as [e|c1] eqn:Hc1;
    [vm_compute in Hc1; discriminate|].
  assert (finished c1.2 = true) as Hf1.
  { pose proof Hc1 as Hc'. vm_compute in Hc'. injection Hc' as <-.
    vm_compute. reflexivity. }
  destruct (job_exec parity_key number_value 0 Z.add [4; 5]%nat 1
              (entries (st_store c1.2)) (round_robin 1 20))
    as [e|c2] eqn:Hc2.
  { exfalso. pose proof Hc1 as Hc'. vm_compute in Hc'. injection Hc' as Hc'.
    rewrite <- Hc' in Hc2. vm_compute in Hc2. discriminate. }
  assert (finished c2.2 = true) as Hf2.
  { pose proof Hc1 as Hc'. vm_compute in Hc'. injection Hc' as Hc'.
    pose proof Hc2 as Hc''. rewrite <- Hc' in Hc''. vm_compute in Hc''.
    injection Hc'' as <-. vm_compute. reflexivity. }
  assert (dataset_size [1; 2; 3]%nat <= SIZE_MAX) as Hs1
    by (vm_compute; discriminate).
  assert (dataset_size [4; 5]%nat <= SIZE_MAX) as Hs2
    by (vm_compute; discriminate).
  destruct (exec_twice_accumulates parity_key number_value 0 Z.add
              [1; 2; 3]%nat [4; 5]%nat ∅ 2 1 (round_robin 2 20)
              (round_robin 1 20) c1 c2 Z.add_comm
              (fun x y z => eq_sym (Z.add_assoc x y z))
              Hs1 Hs2 INT_MAX_bounds_2 INT_MAX_bounds_1 Hc1 Hf1 Hc2 Hf2)
    as [_ Hent].
  exists c1, c2. split; [reflexivity|]. split; [exact Hf1|].
  split; [exact Hc2|]. split; [exact Hf2|].
  split; [exact Hent|]. rewrite Hent. vm_compute. reflexivity.
Defined.

(* ===================================================================== *)
(** ** The combiner: [associative] and [reducer] *)
(* ===================================================================== *)

Section Associative.
Context {L V : Type} `{Countable L}.

(** [V]'s own [operator+=]: [x += y] leaves [add x y] in [x]. *)
Variable add : V -> V -> V.

(** An [associative<V>] holds a reference [_value] to a [V] that lives
    elsewhere (lines 48-50, 67): the memory maps the places where such
    values live to what they hold, and the reference is a place. *)
Record associative := Associative { _value : L }.

(** [reducer(V &val) : associative<V>(val)] (lines 109-111): a reducer is
    an associative and overrides nothing. *)
Definition reducer (val : L) : associative := Associative val.

(** [operator+=(const V &other)] (lines 52-57): [_value += other; return
    *this].  [None]: the reference does not point at a value. *)
Definition associative_add (a : associative) (other : V) (m : gmap L V)
  : option (associative * gmap L V) :=
  match m !! _value a with
  | Some v => Some (a, <[_value a := add v other]> m)
  | None => None
  end.

(** [operator V()] (lines 59-60) and [value()] (lines 62-64). *)
Definition associative_value (a : associative) (m : gmap L V) : option V :=
  m !! _value a.

(** Chained merges, [((a += v1) += v2) += ...]: each [+=] is applied to
    what the one before returned. *)
Fixpoint associative_add_all (a : associative) (vs : list V) (m : gmap L V)
  : option (associative * gmap L V) :=
  match vs with
  | [] => Some (a, m)
  | v :: vs' =>
      match associative_add a v m with
      | Some (a', m') => associative_add_all a' vs' m'
      | None => None
      end
  end.

(** X11. Chained merges through an [associative] (or a [reducer]) over a
    value [v] leave the left fold of [V]'s [+=] over the incoming values
    in the referenced storage itself: reading the accumulator, or any
    other accumulator bound to the same storage, gives that fold, what
    the chain returns is the accumulator it started from, and no other
    storage is changed. *)
Theorem associative_chain (a : associative) (vs : list V) (m : gmap L V) v :
  m !! _value a = Some v ->
  exists m',
    associative_add_all a vs m = Some (a, m') /\
    associative_value a m' = Some (foldl add v vs) /\
    (forall b, _value b = _value a ->
       associative_value b m' = Some (foldl add v vs)) /\
    associative_value (reducer (_value a)) m' = Some (foldl add v vs) /\
    (forall l, l <> _value a -> m' !! l = m !! l).
Proof.
  revert m v. induction vs as [|x vs IH]; intros m v Hv.
  - exists m. unfold associative_value. split_and!; try done.
    by intros b ->.
  - simpl. unfold associative_add. rewrite Hv.
    destruct (IH (<[_value a := add v x]> m) (add v x))
      as (m' & Hall & Hval & Halias & Hred & Hframe).
    { by rewrite lookup_insert_eq. }
    exists m'. split_and!; try done.
    intros l Hl. rewrite Hframe by done. by rewrite lookup_insert_ne.
Qed.
End Associative.

Lemma associative_chain_witness :
  exists m',
    associative_add_all Z.add (Associative 7%nat) [1; 2; 3]
      ({[ 7%nat := 10; 8%nat := 0 ]} : gmap nat Z)
    = Some (Associative 7%nat, m') /\
    associative_value (reducer 7%nat) m' = Some 16 /\
    m' !! 8%nat = Some 0.
Proof.
  assert (({[ 7%nat := 10; 8%nat := 0 ]} : gmap nat Z)
            !! _value (Associative 7%nat) = Some 10) as Hv
    by (vm_compute; reflexivity).
  destruct (associative_chain Z.add (Associative 7%nat) [1; 2; 3]
              ({[ 7%nat := 10; 8%nat := 0 ]} : gmap nat Z) 10 Hv)
    as (m' & Hall & _ & _ & Hred & Hframe).
  exists m'. split; [exact Hall|]. split; [exact Hred|].
  rewrite Hframe by discriminate. vm_compute. reflexivity.
Defined.

(* ===================================================================== *)
(** ** The further properties on the small job *)
(* ===================================================================== *)

Lemma run_stays_in_range_witness :
  exists c,
    job_exec parity_key number_value 0 Z.add sample_dataset 2 ∅
      [0; 0; 1; 1; 0; 0]%nat = inr c /\
    workers c.2 !! 0%nat = Some (Worker (Task 0 2) 0 (AtStore 1%nat 0)) /\
    (forall t w, workers c.2 !! t = Some w ->
       w_pc w <> Crashed /\
       (_begin (w_task w) <= w_i w <= _end (w_task w))%nat) /\
    (forall t ev, (t, ev) ∈ c.1 -> ev <> EvCrash).
Proof.
  destruct (job_exec parity_key number_value 0 Z.add sample_dataset 2 ∅
              [0; 0; 1; 1; 0; 0]%nat) as [e|c] eqn:Hc;
    [vm_compute in Hc; discriminate|].
  destruct (run_stays_in_range parity_key number_value 0 Z.add
              sample_dataset ∅ 2 [0; 0; 1; 1; 0; 0]%nat c
              INT_MAX_bounds_2 sample_dataset_size Hc) as [Hin Hev].
  exists c. split; [reflexivity|]. split.
  - vm_compute in Hc. injection Hc as <-. vm_compute. reflexivity.
  - split; [|exact Hev]. intros t w Hwt.
    destruct (Hin t w Hwt) as (H1 & H2 & _). split; [exact H1|exact H2].
Defined.

Lemma exec_returns_unlocked_witness :
  exists c,
    job_exec parity_key number_value 0 Z.add sample_dataset 2 ∅
      (round_robin 2 25) = inr c /\
    finished c.2 = true /\
    locks (st_store c.2) = ∅ /\
    length (workers c.2) = 2%nat.
Proof.
  destruct (job_exec parity_key number_value 0 Z.add sample_dataset 2 ∅
              (round_robin 2 25)) as [e|c] eqn:Hc;
    [vm_compute in Hc; discriminate|].
  assert (finished c.2 = true) as Hfin.
  { pose proof Hc as Hc'. vm_compute in Hc'. injection Hc' as <-.
    vm_compute. reflexivity. }
  destruct (exec_returns_unlocked parity_key number_value 0 Z.add
              sample_dataset ∅ 2 (round_robin 2 25) c
              INT_MAX_bounds_2 sample_dataset_size Hc Hfin)
    as (Hlocks & Hlen & _).
  exists c. split; [reflexivity|]. split; [exact Hfin|].
  split; [exact Hlocks|exact Hlen].
Defined.

Lemma exec_store_is_fold_of_reordering_witness :
  exists c recs,
    job_exec parity_key number_value 0 Z.sub sample_dataset 2 ∅
      (round_robin 2 25) = inr c /\
    finished c.2 = true /\
    recs ≡ₚ sample_dataset /\
    entries (st_store c.2)
      = sequential_fold parity_key number_value 0 Z.sub ∅ recs.
Proof.
  destruct (job_exec parity_key number_value 0 Z.sub sample_dataset 2 ∅
              (round_robin 2 25)) as [e|c] eqn:Hc;
    [vm_compute in Hc; discriminate|].
  assert (finished c.2 = true) as Hfin.
  { pose proof Hc as Hc'. vm_compute in Hc'. injection Hc' as <-.
    vm_compute. reflexivity. }
  destruct (exec_store_is_fold_of_reordering parity_key number_value 0 Z.sub
              sample_dataset ∅ 2 (round_robin 2 25) c
              INT_MAX_bounds_2 sample_dataset_size Hc Hfin)
    as (recs & Hperm & _ & Hent).
  exists c, recs. split; [reflexivity|]. split; [exact Hfin|].
  split; [exact Hperm|exact Hent].
Defined.

Lemma exec_entry_of_key_witness :
  exists c,
    job_exec parity_key number_value 0 Z.sub [1; 2; 3]%nat 2 {[ 0%nat := 10 ]}
      (round_robin 2 20) = inr c /\
    finished c.2 = true /\
    entries (st_store c.2) !! 0%nat = Some (10 - 2) /\
    entries (st_store c.2) !! 5%nat = None.
Proof.
  destruct (job_exec parity_key number_value 0 Z.sub [1; 2; 3]%nat 2
              {[ 0%nat := 10 ]} (round_robin 2 20)) as [e|c] eqn:Hc;
    [vm_compute in Hc; discriminate|].
  assert (finished c.2 = true) as Hfin.
  { pose proof Hc as Hc'. vm_compute in Hc'. injection Hc' as <-.
    vm_compute. reflexivity. }
  assert (dataset_size [1; 2; 3]%nat <= SIZE_MAX) as Hs
    by (vm_compute; discriminate).
  exists c. split; [reflexivity|]. split; [exact Hfin|]. split.
  - destruct (exec_entry_of_key parity_key number_value 0 Z.sub
                [1; 2; 3]%nat {[ 0%nat := 10 ]} 2 (round_robin 2 20) c 0%nat
                INT_MAX_bounds_2 Hs Hc Hfin) as (_ & _ & Hone).
    rewrite (Hone 2%nat eq_refl). vm_compute. reflexivity.
  - destruct (exec_entry_of_key parity_key number_value 0 Z.sub
                [1; 2; 3]%nat {[ 0%nat := 10 ]} 2 (round_robin 2 20) c 5%nat
                INT_MAX_bounds_2 Hs Hc Hfin) as (_ & Hnone & _).
    rewrite (Hnone eq_refl). vm_compute. reflexivity.
Defined.

Lemma exec_store_keys_witness :
  exists c,
    job_exec parity_key number_value 0 Z.add sample_dataset 2 {[ 9%nat := 1 ]}
      [0; 0; 0; 1]%nat = inr c /\
    dom ({[ 9%nat := 1 ]} : gmap nat Z) ⊆ dom (entries (st_store c.2)) /\
    dom (entries (st_store c.2))
      ⊆ dom ({[ 9%nat := 1 ]} : gmap nat Z)
        ∪ list_to_set (parity_key <$> sample_dataset).
Proof.
  destruct (job_exec parity_key number_value 0 Z.add sample_dataset 2
              {[ 9%nat := 1 ]} [0; 0; 0; 1]%nat) as [e|c] eqn:Hc;
    [vm_compute in Hc; discriminate|].
  destruct (exec_store_keys parity_key number_value 0 Z.add sample_dataset
              {[ 9%nat := 1 ]} 2 [0; 0; 0; 1]%nat c
              INT_MAX_bounds_2 sample_dataset_size Hc) as (Hsub & Hsup & _).
  exists c. split; [reflexivity|]. split; [exact Hsub|exact Hsup].
Defined.

Lemma exec_step_count_witness :
  exists c,
    job_exec parity_key number_value 0 Z.add sample_dataset 2 ∅
      (round_robin 2 25) = inr c /\
    finished c.2 = true /\
    length c.1 = 32%nat.
Proof.
  destruct (job_exec parity_key number_value 0 Z.add sample_dataset 2 ∅
              (round_robin 2 25)) as [e|c] eqn:Hc;
    [vm_compute in Hc; discriminate|].
  assert (finished c.2 = true) as Hfin.
  { pose proof Hc as Hc'. vm_compute in Hc'. injection Hc' as <-.
    vm_compute. reflexivity. }
  destruct (exec_step_count parity_key number_value 0 Z.add sample_dataset
              ∅ 2 (round_robin 2 25) c
              INT_MAX_bounds_2 sample_dataset_size Hc) as (_ & Hiff & _).
  exists c. split; [reflexivity|]. split; [exact Hfin|].
  exact (proj1 Hiff Hfin).
Defined.

Lemma run_reversed_range_never_returns_witness :
  finished (run parity_key number_value 0 Z.add sample_dataset
              (round_robin 1 40)
              ([], init_state (∅ : gmap nat Z) [Task 3 1])).2 = false.
Proof.
  apply (run_reversed_range_never_returns parity_key number_value 0 Z.add
           sample_dataset ∅ [Task 3 1] (round_robin 1 40) 0%nat (Task 3 1)
           eq_refl).
  simpl. lia.
Defined.

Lemma exec_round_robin_terminates_witness :
  exists c,
    job_exec parity_key number_value 0 Z.add sample_dataset 2 ∅
      (round_robin 2 32) = inr c /\
    finished c.2 = true /\
    locks (st_store c.2) = ∅.
Proof.
  apply (exec_round_robin_terminates parity_key number_value 0 Z.add
           sample_dataset ∅ 2 32 INT_MAX_bounds_2 sample_dataset_size).
  vm_compute. lia.
Defined.

Lemma exec_locks_once_per_record_witness :
  exists c,
    job_exec parity_key number_value 0 Z.add sample_dataset 2 ∅
      (round_robin 2 25) = inr c /\
    finished c.2 = true /\
    omap lock_of c.1.*2 ≡ₚ parity_key <$> sample_dataset.
Proof.
  destruct (job_exec parity_key number_value 0 Z.add sample_dataset 2 ∅
              (round_robin 2 25)) as [e|c] eqn:Hc;
    [vm_compute in Hc; discriminate|].
  assert (finished c.2 = true) as Hfin.
  { pose proof Hc as Hc'. vm_compute in Hc'. injection Hc' as <-.
    vm_compute. reflexivity. }
  destruct (exec_locks_once_per_record parity_key number_value 0 Z.add
              sample_dataset ∅ 2 (round_robin 2 25) c
              INT_MAX_bounds_2 sample_dataset_size Hc Hfin) as [Hlocks _].
  exists c. split; [reflexivity|]. split; [exact Hfin|exact Hlocks].
Defined.

(* ===================================================================== *)
(** ** The merge of [task::run] is the combiner's [+=] *)
(* ===================================================================== *)

Section ReducerMerge.
Context {Rec K V : Type} `{Countable K}.
Variables (key : Rec -> K) (value : Rec -> V) (V0 : V).
Variable combine : V -> V -> V.
Variable dataset : list Rec.

Local Abbreviation job_exec := (job_exec key value V0 combine dataset).
Local Abbreviation step := (step key value V0 combine dataset).
Local Abbreviation dataset_size := (dataset_size dataset).

(** X13. Line 166, [R(_store[m.key()]) += m.value()], under concurrency:
    in every run of [exec], when a worker writes its merge for key [k] the
    entry of [k] exists, the worker holds the lock of [k], and the store
    changes exactly as one uninterrupted [reducer(entry) += value] on the
    entry as it is at that moment: the value the worker had loaded earlier
    is still the current one. *)
Theorem run_merge_is_reducer_add (s0 : gmap K V) ntask sched c t k v st' :
  1 <= ntask <= INT_MAX ->
  dataset_size <= SIZE_MAX ->
  job_exec ntask s0 sched = inr c ->
  step t c.2 = Some (EvMerge k v, st') ->
  associative_add combine (reducer k) v (entries (st_store c.2))
    = Some (reducer k, entries (st_store st')) /\
  locks (st_store c.2) !! k = Some t /\
  locks (st_store st') = locks (st_store c.2).
Proof.
  intros Hn Hs Hc Hstep.
  pose proof (job_exec_inv key value V0 combine dataset ntask Hn Hs
                _ _ _ Hc) as [Hw _ _ _ _].
  apply step_unfold in Hstep as (w & w' & s' & Hwt & Hstep & ->). simpl.
  destruct (step_worker_merge key value V0 combine dataset _ _ _ _ _ _ _
              (Hw t w Hwt) Hstep)
    as (old & Hold & Hent & Hlocks & Hlk & _).
  unfold associative_add, reducer. simpl. by rewrite Hold, Hent.
Qed.
End ReducerMerge.

Lemma run_merge_is_reducer_add_witness :
  exists c st',
    job_exec parity_key number_value 0 Z.add sample_dataset 2 ∅
      [0; 0; 0; 0]%nat = inr c /\
    step parity_key number_value 0 Z.add sample_dataset 0 c.2
      = Some (EvMerge 1%nat 1, st') /\
    associative_add Z.add (reducer 1%nat) 1 (entries (st_store c.2))
      = Some (reducer 1%nat, entries (st_store st')) /\
    entries (st_store st') !! 1%nat = Some 1.
Proof.
  destruct (job_exec parity_key number_value 0 Z.add sample_dataset 2 ∅
              [0; 0; 0; 0]%nat) as [e|c] eqn:Hc;
    [vm_compute in Hc; discriminate|].
  pose proof Hc as Hc'. vm_compute in Hc'. injection Hc' as Hc'.
  destruct (step parity_key number_value 0 Z.add sample_dataset 0 c.2)
    as [[ev st']|] eqn:Hstep;
    [|rewrite <- Hc' in Hstep; vm_compute in Hstep; discriminate].
  assert (ev = EvMerge 1%nat 1) as ->.
  { pose proof Hstep as Hs'. rewrite <- Hc' in Hs'. vm_compute in Hs'.
    congruence. }
  destruct (run_merge_is_reducer_add parity_key number_value 0 Z.add
              sample_dataset ∅ 2 [0; 0; 0; 0]%nat c 0%nat 1%nat 1 st'
              INT_MAX_bounds_2 sample_dataset_size Hc Hstep) as (Hadd & _).
  exists c, st'. split; [reflexivity|]. split; [exact Hstep|].
  split; [exact Hadd|].
  pose proof Hstep as Hs'. rewrite <- Hc' in Hs'. vm_compute in Hs'.
  injection Hs' as <-. vm_compute. reflexivity.
Defined.
